(** * Grid reservation and settlement engine of the squares pool

    A shallow embedding of the route handlers
      - [src/app/api/squares/route.ts]            (GET, POST: claim/release toggle)
      - [src/app/api/squares/lock/route.ts]       (generateRandomSequence, POST: lock-in)
      - [src/app/api/admin/lock-user/route.ts]    (POST: administrative lock)
    over the two tables [superbowl_squares] and [superbowl_config] of the
    schema file.

    Every handler is a finite program whose nodes are the [await]ed store
    statements, the calls of [Math.random()] and the notification; a runner
    gives the statements their meaning on the tables, one statement at a
    time.  Numbers that the handlers receive are integers here: fractional
    JSON numbers and NaN are outside the model. *)

From Stdlib Require Import ZArith NArith String Ascii List Permutation Lia.
From stdpp Require Import base option list gmap strings.

Open Scope string_scope.
Open Scope Z_scope.

(** ** Data *)

(** A row of [superbowl_squares] without its key: the table is
    [UNIQUE(row_num, col_num)], so it is a finite map from the coordinate. *)
Record Cell := { email : string; locked : bool }.

(** A row as the grid listing returns it. *)
Record Square :=
  { row_num : Z; col_num : Z; sq_email : string; sq_locked : bool }.

(** An element of a JavaScript array of numbers: [None] is [undefined]. *)
Abbreviation jsarray := (list (option Z)).

(** The only row of [superbowl_config] ([id = 1]). *)
Record Config := { row_sequence : jsarray; col_sequence : jsarray }.

Abbreviation Grid := (gmap (Z * Z) Cell).

Record Store := { squares : Grid; config : option Config }.

Record User := { user_email : string }.

(** A value of a parsed JSON request body. *)
Inductive jsval :=
| JUndefined
| JNull
| JBool (b : bool)
| JNumber (n : Z)
| JString (s : string).

(** ** Store statements *)

Inductive PgError :=
| StoreDown          (* the statement did not reach or complete on the store *)
| UniqueViolation    (* 23505: UNIQUE(row_num, col_num) or the config key *)
| CheckViolation     (* 23514: row_num / col_num outside 0..9 *)
| NoRows.            (* PGRST116: .single() found no row *)

(** What a supabase call resolves to: [{ data, error, count }]. *)
Record PgResult (A : Type) :=
  { data : option A; error : option PgError; count : option nat }.
Arguments data {A} _.
Arguments error {A} _.
Arguments count {A} _.

Definition pg_ok {A} (a : A) : PgResult A :=
  {| data := Some a; error := None; count := None |}.
Definition pg_err {A} (e : PgError) : PgResult A :=
  {| data := None; error := Some e; count := None |}.
(** A write without [.select()]: no data, no error. *)
Definition pg_done {A} : PgResult A :=
  {| data := None; error := None; count := None |}.

(** The statements the three routes send, named after their query chain. *)
Inductive Query :=
| SelectSquares                                   (* select row_num,col_num,email,locked *)
| SelectConfigSingle                              (* select row_sequence,col_sequence .single() *)
| SelectLockedOf (e : string)                     (* select locked .eq(email).eq(locked,true).limit(1) *)
| SelectSquareSingle (row col : Z)                (* select email,locked .eq(row_num).eq(col_num).single() *)
| DeleteSquare (row col : Z) (e : string)         (* delete .eq(row_num).eq(col_num).eq(email) *)
| InsertSquare (row col : Z) (e : string) (l : bool)
| SelectByEmail (e : string)                      (* select id,locked .eq(email) *)
| UpdateLocked (e : string)                       (* update {locked:true} .eq(email) *)
| UpdateLockedSelect (e : string)                 (* the same, followed by .select() *)
| CountLocked                                     (* select * {count:exact, head:true} .eq(locked,true) *)
| InsertConfig (c : Config).                      (* insert {id:1,..} .select(..).single() *)

Definition Payload (q : Query) : Type :=
  match q with
  | SelectSquares => list Square
  | SelectConfigSingle => Config
  | SelectLockedOf _ => list bool
  | SelectSquareSingle _ _ => Cell
  | DeleteSquare _ _ _ => unit
  | InsertSquare _ _ _ _ => unit
  | SelectByEmail _ => list bool
  | UpdateLocked _ => unit
  | UpdateLockedSelect _ => list Square
  | CountLocked => unit
  | InsertConfig _ => Config
  end.

Definition owned_by (e : string) (c : Cell) : Prop := email c = e.
Definition locked_cell (c : Cell) : Prop := locked c = true.

#[global] Instance owned_by_dec e c : Decision (owned_by e c).
Proof. unfold owned_by. apply _. Defined.
#[global] Instance locked_cell_dec c : Decision (locked_cell c).
Proof. unfold locked_cell. apply _. Defined.

Definition lock (c : Cell) : Cell := {| email := email c; locked := true |}.

(** [UPDATE superbowl_squares SET locked = true WHERE email = e]. *)
Definition lock_where (e : string) (m : Grid) : Grid :=
  (fun c => if decide (owned_by e c) then lock c else c) <$> m.

(** The rows with [email = e]. *)
Definition cells_of (e : string) (m : Grid) : Grid :=
  filter (fun kc => owned_by e kc.2) m.

(** The rows with [locked = true]. *)
Definition locked_cells (m : Grid) : Grid :=
  filter (fun kc => locked_cell kc.2) m.

Definition to_square (kc : (Z * Z) * Cell) : Square :=
  {| row_num := kc.1.1; col_num := kc.1.2;
     sq_email := email kc.2; sq_locked := locked kc.2 |}.

Definition in_grid (row col : Z) : bool :=
  (0 <=? row) && (row <=? 9) && (0 <=? col) && (col <=? 9).

(** One statement on the tables, when the store carries it out.  The
    constraints are those of the schema file: [UNIQUE(row_num, col_num)],
    the two [CHECK]s on the coordinates, and the primary key [id = 1] of
    [superbowl_config].  No call passes a [count] option except the
    head-count of locked rows, so only that one reports a count. *)
Definition exec (q : Query) (st : Store) : PgResult (Payload q) * Store :=
  match q return PgResult (Payload q) * Store with
  | SelectSquares =>
      (pg_ok (to_square <$> map_to_list (squares st)), st)
  | SelectConfigSingle =>
      (match config st with Some c => pg_ok c | None => pg_err NoRows end, st)
  | SelectLockedOf e =>
      (pg_ok (take 1 ((fun kc => locked kc.2) <$>
                      map_to_list (locked_cells (cells_of e (squares st))))), st)
  | SelectSquareSingle row col =>
      (match squares st !! (row, col) with
       | Some c => pg_ok c
       | None => pg_err NoRows
       end, st)
  | DeleteSquare row col e =>
      (pg_done,
       {| squares := filter (fun kc => ¬ (kc.1 = (row, col) ∧ owned_by e kc.2))
                            (squares st);
          config := config st |})
  | InsertSquare row col e l =>
      if negb (in_grid row col) then (pg_err CheckViolation, st)
      else match squares st !! (row, col) with
           | Some _ => (pg_err UniqueViolation, st)
           | None =>
               (pg_done,
                {| squares := <[(row, col) := {| email := e; locked := l |}]> (squares st);
                   config := config st |})
           end
  | SelectByEmail e =>
      (pg_ok ((fun kc => locked kc.2) <$> map_to_list (cells_of e (squares st))), st)
  | UpdateLocked e =>
      (pg_done,
       {| squares := lock_where e (squares st); config := config st |})
  | UpdateLockedSelect e =>
      (pg_ok (to_square <$> map_to_list (cells_of e (lock_where e (squares st)))),
       {| squares := lock_where e (squares st); config := config st |})
  | CountLocked =>
      ({| data := None; error := None;
          count := Some (size (locked_cells (squares st))) |}, st)
  | InsertConfig c =>
      match config st with
      | Some _ => (pg_err UniqueViolation, st)
      | None => (pg_ok c, {| squares := squares st; config := Some c |})
      end
  end.

(** ** Handlers as programs *)

(** A value of [Math.random()]: the rational [rnum / rden].  JavaScript
    promises [0 <= Math.random() < 1], that is [rnum < rden]. *)
Record rnd := { rnum : N; rden : positive }.


(** [Math.floor(r * n)] *)
Definition floor_times (r : rnd) (n : nat) : nat :=
  N.to_nat ((rnum r * N.of_nat n) / Npos (rden r)).

Inductive Prog (A : Type) : Type :=
| Ret (a : A)
| Await (q : Query) (k : PgResult (Payload q) -> Prog A)
| Random (k : rnd -> Prog A)
| Notify (e : string) (n : nat) (k : bool -> Prog A).
Arguments Ret {A} _.
Arguments Await {A} _ _.
Arguments Random {A} _.
Arguments Notify {A} _ _ _.

Fixpoint Prog_bind {A B} (f : A -> Prog B) (p : Prog A) : Prog B :=
  match p with
  | Ret a => f a
  | Await q k => Await q (fun r => Prog_bind f (k r))
  | Random k => Random (fun r => Prog_bind f (k r))
  | Notify e n k => Notify e n (fun b => Prog_bind f (k b))
  end.

#[global] Instance Prog_ret : MRet Prog := @Ret.
#[global] Instance Prog_mbind : MBind Prog := @Prog_bind.

Definition await (q : Query) : Prog (PgResult (Payload q)) := Await q Ret.
Definition Math_random : Prog rnd := Random Ret.
Definition sendSquaresNotification (e : string) (n : nat) : Prog bool :=
  Notify e n Ret.

(** ** Running a program *)

(** What a run does not decide itself: which statements the store fails,
    what [Math.random()] returns at its n-th call, and whether the text
    message went out. *)
Record Env :=
  { fault : Query -> bool; random : nat -> rnd; sms_sent : bool }.

Record World :=
  { store : Store;
    rng : nat;                                  (* calls of Math.random() so far *)
    journal : list (Query * option PgError) }.  (* statements sent, with their error *)

Definition answer (e : Env) (q : Query) (st : Store) : PgResult (Payload q) * Store :=
  if fault e q then (pg_err StoreDown, st) else exec q st.

(** [others q] is what concurrent requests commit to the tables just before
    statement [q] of this request is carried out. *)
Fixpoint run_racing {A} (others : Query -> Store -> Store) (e : Env)
    (p : Prog A) (w : World) : A * World :=
  match p with
  | Ret a => (a, w)
  | Await q k =>
      let rs := answer e q (others q (store w)) in
      run_racing others e (k rs.1)
        {| store := rs.2; rng := rng w;
           journal := (journal w ++ [(q, error rs.1)])%list |}
  | Random k =>
      run_racing others e (k (random e (rng w)))
        {| store := store w; rng := S (rng w); journal := journal w |}
  | Notify _ _ k => run_racing others e (k (sms_sent e)) w
  end.

Definition alone : Query -> Store -> Store := fun _ st => st.

(** A request served with no other request in flight. *)
Definition run {A} (e : Env) (p : Prog A) (w : World) : A * World :=
  run_racing alone e p w.

(** ** [generateRandomSequence] *)

(** [a[i]] *)
Definition js_get (a : jsarray) (i : nat) : option Z := default None (a !! i).

(** [a[i] = v]: past the end the array grows, the gap reads [undefined]. *)
Definition js_set (a : jsarray) (i : nat) (v : option Z) : jsarray :=
  if decide (i < length a)%nat then <[i := v]> a
  else (a ++ replicate (i - length a) None ++ [v])%list.

(** [[a[i], a[j]] = [a[j], a[i]]] *)
Definition js_swap (a : jsarray) (i j : nat) : jsarray :=
  let x := js_get a j in
  let y := js_get a i in
  js_set (js_set a i x) j y.

(** The loop [for (let i = ..; i > 0; i--)] entered with counter [i]. *)
Fixpoint shuffle_from (i : nat) (arr : jsarray) : Prog jsarray :=
  match i with
  | O => mret arr
  | S i' =>
      r ← Math_random;
      let j := floor_times r (i + 1) in
      shuffle_from i' (js_swap arr i j)
  end.

Definition generateRandomSequence : Prog jsarray :=
  let arr := Some <$> [0; 1; 2; 3; 4; 5; 6; 7; 8; 9] in
  shuffle_from (length arr - 1) arr.

(** ** Responses *)

Inductive Body :=
| ErrorBody (msg : string)                                  (* { error } *)
| ActionBody (action : string) (row col : Z) (e : option string)
                                                            (* { action, row, col, email? } *)
| LockedBody (n : nat) (c : option Config)   (* { success, message: Locked n square(s), config } *)
| GridBody (sqs : list Square) (c : option Config)          (* { squares, config } *)
| AdminLockedBody (n : nat) (e : string).    (* { success, message: Locked n squares for e } *)

Record Response := { status : Z; body : Body }.

(** [NextResponse.json(b)] and [NextResponse.json(b, { status })] *)
Definition json (b : Body) : Response := {| status := 200; body := b |}.
Definition json_error (msg : string) (st : Z) : Response :=
  {| status := st; body := ErrorBody msg |}.

(** ** [src/app/api/squares/route.ts] *)

Definition GET_squares : Prog Response :=
  squaresResult ← await SelectSquares;
  configResult ← await SelectConfigSingle;
  match error squaresResult with
  | Some _ => mret (json_error "Failed to fetch squares" 500)
  | None =>
      mret (json (GridBody (default [] (data squaresResult)) (data configResult)))
  end.

Record ToggleBody := { row : jsval; col : jsval }.

Definition POST_squares (user : option User) (b : ToggleBody) : Prog Response :=
  match user with
  | None => mret (json_error "Not authenticated" 401)
  | Some user =>
      match row b, col b with
      | JNumber row, JNumber col =>
          if (row <? 0) || (row >? 9) || (col <? 0) || (col >? 9)
          then mret (json_error "Invalid row or column" 400)
          else
            userSquares ← await (SelectLockedOf (user_email user));
            match data userSquares with
            | Some (_ :: _) =>
                mret (json_error "You have already locked in your squares" 403)
            | _ =>
                existingSquare ← await (SelectSquareSingle row col);
                match data existingSquare with
                | Some sq =>
                    if negb (bool_decide (email sq = user_email user))
                    then mret (json_error "Square is taken by another user" 403)
                    else if locked sq
                    then mret (json_error "Cannot modify locked squares" 403)
                    else
                      del ← await (DeleteSquare row col (user_email user));
                      match error del with
                      | Some _ => mret (json_error "Failed to release square" 500)
                      | None => mret (json (ActionBody "released" row col None))
                      end
                | None =>
                    ins ← await (InsertSquare row col (user_email user) false);
                    match error ins with
                    | Some _ => mret (json_error "Failed to claim square" 500)
                    | None =>
                        mret (json (ActionBody "claimed" row col
                                      (Some (user_email user))))
                    end
                end
            end
      | _, _ => mret (json_error "Invalid row or column" 400)
      end
  end.

(** ** [src/app/api/squares/lock/route.ts] *)

Definition POST_lock (user : option User) : Prog Response :=
  match user with
  | None => mret (json_error "Not authenticated" 401)
  | Some user =>
      fetched ← await (SelectByEmail (user_email user));
      match error fetched with
      | Some _ => mret (json_error "Failed to fetch your squares" 500)
      | None =>
          match data fetched with
          | None | Some [] => mret (json_error "You have no squares to lock" 400)
          | Some userSquares =>
              if existsb (fun s => s) userSquares
              then mret (json_error "Your squares are already locked" 400)
              else
                upd ← await (UpdateLocked (user_email user));
                match error upd with
                | Some _ => mret (json_error "Failed to lock squares" 500)
                | None =>
                    _ ← sendSquaresNotification (user_email user) (length userSquares);
                    counted ← await CountLocked;
                    if bool_decide (count counted = Some 100%nat)
                    then
                      existingConfig ← await SelectConfigSingle;
                      match data existingConfig with
                      | None =>
                          rowSequence ← generateRandomSequence;
                          colSequence ← generateRandomSequence;
                          newConfig ← await (InsertConfig
                            {| row_sequence := rowSequence;
                               col_sequence := colSequence |});
                          match error newConfig with
                          | Some _ => mret (json (LockedBody (length userSquares) None))
                          | None =>
                              mret (json (LockedBody (length userSquares)
                                            (data newConfig)))
                          end
                      | Some c =>
                          mret (json (LockedBody (length userSquares) (Some c)))
                      end
                    else mret (json (LockedBody (length userSquares) None))
                end
          end
      end
  end.

(** ** [src/app/lib/simpleAuth.ts] and [src/app/api/admin/lock-user/route.ts] *)

Definition isAdmin (e : string) : bool :=
  bool_decide (e = "your-admin-email@example.com").

(** [String.prototype.toLowerCase] on the ASCII letters. *)
Definition lower_ascii (c : ascii) : ascii :=
  let n := nat_of_ascii c in
  if ((65 <=? n) && (n <=? 90))%nat then ascii_of_nat (n + 32) else c.

Fixpoint toLowerCase (s : string) : string :=
  match s with
  | EmptyString => EmptyString
  | String c s' => String (lower_ascii c) (toLowerCase s')
  end.

Record AdminBody := { target : jsval }.   (* the [email] field of the body *)

Definition POST_lock_user (user : option User) (b : AdminBody) : Prog Response :=
  match user with
  | None => mret (json_error "Not authenticated" 401)
  | Some user =>
      if negb (isAdmin (user_email user))
      then mret (json_error "Not authorized" 403)
      else
        match target b with
        | JString e =>
            if bool_decide (e = "")
            then mret (json_error "Email is required" 400)
            else
              res ← await (UpdateLockedSelect (toLowerCase e));
              match error res with
              | Some _ => mret (json_error "Failed to lock squares" 500)
              | None => mret (json (AdminLockedBody (default 0%nat (count res)) e))
              end
        | _ => mret (json_error "Email is required" 400)
        end
  end.

(** ** Derived participant state *)

(** [isLocked(p)]: some cell of [p] has [locked = true]. *)
Definition has_locked (e : string) (m : Grid) : Prop :=
  ∃ k c, m !! k = Some c ∧ email c = e ∧ locked c = true.

(** [squareCount(p) > 0] *)
Definition has_cells (e : string) (m : Grid) : Prop :=
  ∃ k c, m !! k = Some c ∧ email c = e.

Definition failed (r : Response) : Prop := 400 <= status r.


(** What one toggle request can do to the tables. *)
Inductive toggle_effect (user : option User) (b : ToggleBody) (w : World)
    (res : Response * World) : Prop :=
| toggle_refused :
    failed res.1 → store res.2 = store w → toggle_effect user b w res
| toggle_claimed (u : User) (r c : Z) :
    user = Some u → b = {| row := JNumber r; col := JNumber c |} →
    0 <= r <= 9 → 0 <= c <= 9 →
    squares (store w) !! (r, c) = None →
    res.1 = json (ActionBody "claimed" r c (Some (user_email u))) →
    store res.2 =
      {| squares := <[(r, c) := {| email := user_email u; locked := false |}]>
                      (squares (store w));
         config := config (store w) |} →
    toggle_effect user b w res
| toggle_released (u : User) (r c : Z) :
    user = Some u → b = {| row := JNumber r; col := JNumber c |} →
    0 <= r <= 9 → 0 <= c <= 9 →
    squares (store w) !! (r, c) = Some {| email := user_email u; locked := false |} →
    res.1 = json (ActionBody "released" r c None) →
    store res.2 =
      {| squares := delete (r, c) (squares (store w));
         config := config (store w) |} →
    toggle_effect user b w res.

(** The array [generateRandomSequence] is left with when its loop is
    entered with counter [i] and [Math.random()] has been called [n] times
    before: the loop of [shuffle_from] with the draws read off [draw]. *)
Fixpoint shuffled (draw : nat -> rnd) (n i : nat) (arr : jsarray) : jsarray :=
  match i with
  | O => arr
  | S i' => shuffled draw (S n) i' (js_swap arr i (floor_times (draw n) (i + 1)))
  end.

Definition digits : jsarray := Some <$> [0; 1; 2; 3; 4; 5; 6; 7; 8; 9].

(** The statements a run sent, with their errors: what it added to the
    journal. *)
Definition sent (w w' : World) : list (Query * option PgError) :=
  drop (length (journal w)) (journal w').

Definition is_InsertConfig (q : Query) : bool :=
  match q with InsertConfig _ => true | _ => false end.

(** The run drew from [Math.random()] or sent the insert of the
    configuration row. *)
Definition generation_attempted (w w' : World) : Prop :=
  rng w' ≠ rng w ∨ existsb (fun x => is_InsertConfig x.1) (sent w w') = true.

(** The pair of sequences the lock-in generates in world [w]. *)
Definition generated (e : Env) (w : World) : Config :=
  {| row_sequence := shuffled (random e) (rng w) 9 digits;
     col_sequence := shuffled (random e) (rng w + 9) 9 digits |}.

(** What one lock-in request can do to the tables. *)
Inductive lock_effect (e : Env) (user : option User) (w : World)
    (res : Response * World) : Prop :=
| lock_refused :
    failed res.1 → store res.2 = store w →
    ¬ generation_attempted w res.2 →
    (∀ u, user = Some u →
       fault e (SelectByEmail (user_email u)) = true ∨
       ¬ has_cells (user_email u) (squares (store w)) ∨
       has_locked (user_email u) (squares (store w)) ∨
       fault e (UpdateLocked (user_email u)) = true) →
    lock_effect e user w res
| lock_plain (u : User) (n : nat) (shown : option Config) :
    user = Some u →
    fault e (SelectByEmail (user_email u)) = false →
    fault e (UpdateLocked (user_email u)) = false →
    has_cells (user_email u) (squares (store w)) →
    ¬ has_locked (user_email u) (squares (store w)) →
    res.1 = json (LockedBody n shown) →
    store res.2 =
      {| squares := lock_where (user_email u) (squares (store w));
         config := config (store w) |} →
    ¬ generation_attempted w res.2 →
    (shown = None ∨
     shown = config (store w) ∧
     size (locked_cells (lock_where (user_email u) (squares (store w)))) = 100%nat) →
    lock_effect e user w res
| lock_generating (u : User) (n : nat) (shown : option Config) :
    user = Some u →
    fault e (SelectByEmail (user_email u)) = false →
    fault e (UpdateLocked (user_email u)) = false →
    has_cells (user_email u) (squares (store w)) →
    ¬ has_locked (user_email u) (squares (store w)) →
    res.1 = json (LockedBody n shown) →
    squares (store res.2) = lock_where (user_email u) (squares (store w)) →
    size (locked_cells (lock_where (user_email u) (squares (store w)))) = 100%nat →
    (config (store w) = None ∨ fault e SelectConfigSingle = true) →
    rng res.2 = (rng w + 18)%nat →
    sent w res.2 !! 4%nat
      = Some (InsertConfig (generated e w),
              if fault e (InsertConfig (generated e w)) then Some StoreDown
              else match config (store w) with
                   | Some _ => Some UniqueViolation
                   | None => None
                   end) →
    (config (store w) = None ∧ fault e (InsertConfig (generated e w)) = false ∧
       config (store res.2) = Some (generated e w) ∧ shown = Some (generated e w)
     ∨
     config (store res.2) = config (store w) ∧ shown = None ∧
       (config (store w) ≠ None ∨ fault e (InsertConfig (generated e w)) = true)) →
    lock_effect e user w res.

(** ** Sequences of requests *)

Inductive Request :=
| ListGrid
| Toggle (user : option User) (b : ToggleBody)
| LockIn (user : option User).

Definition handle (rq : Request) : Prog Response :=
  match rq with
  | ListGrid => GET_squares
  | Toggle user b => POST_squares user b
  | LockIn user => POST_lock user
  end.

(** One request after the other, each with its own environment. *)
Definition serve (w : World) (erq : Env * Request) : World :=
  (run erq.1 (handle erq.2) w).2.

Definition serve_all (w : World) (l : list (Env * Request)) : World :=
  fold_left serve l w.

(** ** Sample environments and worlds *)

(** A store that carries out every statement; the n-th draw is n/20. *)
Definition reliable : Env :=
  {| fault := fun _ => false;
     random := fun n => {| rnum := N.of_nat n; rden := 20 |};
     sms_sent := true |}.

(** The same, with the statements chosen by [down] failing. *)
Definition failing (down : Query -> bool) : Env :=
  {| fault := down; random := random reliable; sms_sent := true |}.

Definition world_of (m : Grid) (c : option Config) : World :=
  {| store := {| squares := m; config := c |}; rng := 0; journal := [] |}.

Definition fresh : World := world_of ∅ None.

Definition alice : User := {| user_email := "alice@example.com" |}.
Definition bob : User := {| user_email := "bob@example.com" |}.

Definition at_ (r c : Z) : ToggleBody := {| row := JNumber r; col := JNumber c |}.

Definition cell_of (u : User) (l : bool) : Cell :=
  {| email := user_email u; locked := l |}.

(** Alice and Bob each hold one unlocked cell. *)
Definition two_owners : World :=
  world_of (<[(3, 4) := cell_of alice false]> (<[(5, 5) := cell_of bob false]> ∅)) None.

(** ** The shuffle as the specification words it

    "for i from 9 down to 1, draw j uniformly from [0,i], swap positions i
    and j", on a list of numbers; [pick i] is the j drawn in round i. *)



Definition zero_to_nine : list Z := [0; 1; 2; 3; 4; 5; 6; 7; 8; 9].

(** Alice's claim of the same cell is committed between the read of the
    cell and the insert of the request that is running. *)
Definition alice_claims_first (r c : Z) (q : Query) (st : Store) : Store :=
  match q with
  | InsertSquare _ _ _ _ =>
      store (run reliable (POST_squares (Some alice) (at_ r c))
               {| store := st; rng := 0; journal := [] |}).2
  | _ => st
  end.

Definition all_coordinates : list (Z * Z) :=
  r ← zero_to_nine; c ← zero_to_nine; [(r, c)].

(** The 100 cells, all of one owner. *)
Definition full_grid (u : User) (l : bool) : Grid :=
  list_to_map ((fun k => (k, cell_of u l)) <$> all_coordinates).

Definition sample_config : Config :=
  {| row_sequence := Some <$> [5; 2; 9; 0; 1; 3; 4; 6; 7; 8];
     col_sequence := Some <$> [1; 0; 3; 7; 2; 4; 5; 6; 8; 9] |}.

Definition config_insert_down (q : Query) : bool := is_InsertConfig q.

Definition config_read_down (q : Query) : bool :=
  match q with SelectConfigSingle => true | _ => false end.

Definition everything_down (q : Query) : bool := true.

Definition admin : User := {| user_email := "your-admin-email@example.com" |}.


Definition full_without_config : World := world_of (full_grid alice false) None.

(** ** Invariants of the tables *)

(** A coordinate the handler accepts: a number from 0 to 9. *)
Definition valid_coordinate (v : jsval) : bool :=
  match v with
  | JNumber n => (0 <=? n) && (n <=? 9)
  | _ => false
  end.

(** Every row sits on the 10 x 10 grid. *)
Definition all_in_grid (m : Grid) : Prop :=
  ∀ k cell, m !! k = Some cell → in_grid k.1 k.2 = true.

(** Every participant has all of their cells locked or none. *)
Definition uniform (m : Grid) : Prop :=
  ∀ k1 c1 k2 c2, m !! k1 = Some c1 → m !! k2 = Some c2 →
    email c1 = email c2 → locked c1 = locked c2.

(** The store answers the already-locked guard of every toggle in the
    sequence. *)
Definition guards_answered (l : list (Env * Request)) : Prop :=
  Forall (fun erq : Env * Request =>
            match erq.2 with
            | Toggle (Some u) _ => fault erq.1 (SelectLockedOf (user_email u)) = false
            | _ => True
            end) l.

(** The grid after settlement: the 100 cells are taken and every row is
    locked. *)
Definition settled (m : Grid) : Prop :=
  (∀ r c, 0 <= r <= 9 → 0 <= c <= 9 → is_Some (m !! (r, c))) ∧
  (∀ k cell, m !! k = Some cell → locked cell = true).

Definition grid_coordinates : gset (Z * Z) := list_to_set all_coordinates.

(** The store carries out the cell read and the writes of a toggle. *)
Definition toggle_store_ok (e : Env) (u : User) (r c : Z) : Prop :=
  fault e (SelectSquareSingle r c) = false ∧
  fault e (DeleteSquare r c (user_email u)) = false ∧
  fault e (InsertSquare r c (user_email u) false) = false.

Definition guard_read_down (q : Query) : bool :=
  match q with SelectLockedOf _ => true | _ => false end.

(** ** The administrative routes with one statement each

    [POST] of the clear-numbers route (second half of
    [src/app/api/squares/lock/route.ts]) and [GET], [POST] of
    [src/app/api/admin/users/route.ts].  Each sends one statement; [down]
    says that the store fails it. *)

Record UserSquares := { us_email : string; squareCount : nat; us_locked : bool }.

Inductive AdminReply :=
| ReplyError (msg : string)                   (* { error } *)
| ReplyCleared       (* { success, message: 'Generated numbers have been cleared' } *)
| ReplyReleased (n : nat) (e : string)        (* { success, message: Released n squares for e } *)
| ReplyUsers (users : list UserSquares).      (* { users } *)

Record AdminResponse := { admin_status : Z; admin_reply : AdminReply }.

Definition admin_json (b : AdminReply) : AdminResponse :=
  {| admin_status := 200; admin_reply := b |}.
Definition admin_error (msg : string) (st : Z) : AdminResponse :=
  {| admin_status := st; admin_reply := ReplyError msg |}.

(** [superbowl_config]: [delete().eq('id', 1)] *)
Definition delete_config (st : Store) : Store :=
  {| squares := squares st; config := None |}.


Definition POST_clear_numbers (down : bool) (user : option User) (st : Store)
    : AdminResponse * Store :=
  match user with
  | None => (admin_error "Not authenticated" 401, st)
  | Some user =>
      if negb (isAdmin (user_email user))
      then (admin_error "Not authorized" 403, st)
      else if down
      then (admin_error "Failed to clear numbers" 500, st)
      else (admin_json ReplyCleared, delete_config st)
  end.


Definition with_store (w : World) (st : Store) : World :=
  {| store := st; rng := rng w; journal := journal w |}.

(** ** Draws that make the shuffle pick given positions *)



(** ** The participant listing and the totals of the admin page

    [GET] of [src/app/api/admin/users/route.ts] and the two sums of the
    admin page. *)

(** The [Map] of the handler: its entries in insertion order. *)
Abbreviation UserMap := (list (string * (nat * bool))).

(** [userMap.get(e)] *)
Fixpoint userMap_get (m : UserMap) (e : string) : option (nat * bool) :=
  match m with
  | [] => None
  | (k, v) :: m => if decide (k = e) then Some v else userMap_get m e
  end.

(** [existing.count++; if (l) existing.locked = true] on the entry of [e]. *)
Fixpoint userMap_bump (m : UserMap) (e : string) (l : bool) : UserMap :=
  match m with
  | [] => []
  | (k, (n, lk)) :: m =>
      if decide (k = e) then (k, (S n, if l then true else lk)) :: m
      else (k, (n, lk)) :: userMap_bump m e l
  end.

(** The body of [squares.forEach]. *)
Definition group_row (m : UserMap) (sq : Cell) : UserMap :=
  match userMap_get m (email sq) with
  | Some _ => userMap_bump m (email sq) (locked sq)
  | None => (m ++ [(email sq, (1%nat, locked sq))])%list
  end.

Definition group_by_email (rows : list Cell) : UserMap :=
  fold_left group_row rows [].

Definition to_user (kv : string * (nat * bool)) : UserSquares :=
  {| us_email := kv.1; squareCount := kv.2.1; us_locked := kv.2.2 |}.

(** [users.sort((a, b) => a.email.localeCompare(b.email))].  The e-mails of
    the array are pairwise different, so with a comparator that orders them
    every sorting procedure returns the same array; it is written here as an
    insertion sort over the comparator. *)
Fixpoint sort_insert (localeCompare : string -> string -> Z) (u : UserSquares)
    (l : list UserSquares) : list UserSquares :=
  match l with
  | [] => [u]
  | v :: l' =>
      if localeCompare (us_email u) (us_email v) <=? 0 then u :: l
      else v :: sort_insert localeCompare u l'
  end.

Definition sort_by_email (localeCompare : string -> string -> Z)
    (l : list UserSquares) : list UserSquares :=
  foldr (sort_insert localeCompare) [] l.

(** [select('email, locked')] on [superbowl_squares] *)
Definition select_email_locked (st : Store) : list Cell :=
  snd <$> map_to_list (squares st).

Definition GET_users (localeCompare : string -> string -> Z) (down : bool)
    (user : option User) (st : Store) : AdminResponse * Store :=
  match user with
  | None => (admin_error "Not authenticated" 401, st)
  | Some user =>
      if negb (isAdmin (user_email user))
      then (admin_error "Not authorized" 403, st)
      else if down
      then (admin_error "Failed to fetch users" 500, st)
      else
        let users := to_user <$> group_by_email (select_email_locked st) in
        (admin_json (ReplyUsers (sort_by_email localeCompare users)), st)
  end.

(** [users.reduce((sum, u) => sum + u.squareCount, 0)] *)
Definition totalSquares (users : list UserSquares) : nat :=
  fold_left (fun sum u => (sum + squareCount u)%nat) users 0%nat.

(** [users.filter((u) => u.locked).reduce((sum, u) => sum + u.squareCount, 0)] *)
Definition lockedSquares (users : list UserSquares) : nat :=
  fold_left (fun sum u => (sum + squareCount u)%nat)
            (List.filter us_locked users) 0%nat.

(** The rows of [e] among [rows], and whether one of them is locked. *)
Definition rows_of (e : string) (rows : list Cell) : nat :=
  sum_list_with (fun c => if decide (email c = e) then 1%nat else 0%nat) rows.

Definition some_locked (e : string) (rows : list Cell) : bool :=
  existsb (fun c => bool_decide (email c = e) && locked c) rows.

(** ASCII order of two strings, as a comparator. *)
Definition ascii_compare (a b : string) : Z :=
  match String.compare a b with Lt => -1 | Eq => 0 | Gt => 1 end.

(** ** Magic-link tokens

    [createMagicLinkToken] and [verifyMagicLinkToken] of
    [src/app/lib/simpleAuth.ts], [GET] of
    [src/app/api/auth/verify/route.ts] and [cleanup_expired_tokens] of the
    schema file, over the table [magic_link_tokens], whose [id] is its
    primary key.  Instants are the milliseconds of [Date.now()]; a [down]
    flag says that the store fails the statement. *)

Record TokenRow := { tk_email : string; expires_at : Z; used : bool }.

Abbreviation Tokens := (gmap string TokenRow).

(** [token] is the string built from [Math.random()] and the clock, [now]
    the value of [Date.now()] for the expiry; [None] is the thrown error. *)
Definition createMagicLinkToken (down : bool) (token : string) (now : Z)
    (e : string) (t : Tokens) : option string * Tokens :=
  if down then (None, t)
  else match t !! token with
       | Some _ => (None, t)
       | None =>
           (Some token,
            <[token := {| tk_email := toLowerCase e;
                          expires_at := now + 10 * 60 * 1000;
                          used := false |}]> t)
       end.

(** [update({ used: true })] on one row *)
Definition mark_used (r : TokenRow) : TokenRow :=
  {| tk_email := tk_email r; expires_at := expires_at r; used := true |}.

(** [read_down] fails the [select], [write_down] the [update], whose result
    the function does not look at. *)
Definition verifyMagicLinkToken (read_down write_down : bool) (now : Z)
    (token : string) (t : Tokens) : option string * Tokens :=
  if read_down then (None, t)
  else match t !! token with
       | None => (None, t)
       | Some r =>
           if used r then (None, t)
           else if expires_at r <? now then (None, t)
           else (Some (tk_email r),
                 if write_down then t else <[token := mark_used r]> t)
       end.



(** [DELETE FROM magic_link_tokens WHERE expires_at < NOW() OR used = true] *)
Definition cleanup_expired_tokens (now : Z) (t : Tokens) : Tokens :=
  filter (fun kr : string * TokenRow => ¬ (expires_at kr.2 < now ∨ used kr.2 = true)) t.

(** ** The page of the grid ([src/app/page.tsx])

    The state that [fetchSquares], [handleSquareClick] and [handleLockIn]
    read and write.  The [Map] of the page is keyed by the string
    [row-col]; here it is keyed by the pair, and a value is the [email] and
    [locked] of the square.  A handler runs to its end before the next one
    starts ([actionLoading] is [false] when it starts); [user] is the
    session that the requests of the page carry.  [delivered] says that
    [fetch] returned the response; when it is [false] the request was served
    and [fetch] threw. *)

Record Page :=
  { page_squares : Grid; page_config : option Config; page_error : option string }.

Definition set_error (p : Page) (msg : option string) : Page :=
  {| page_squares := page_squares p; page_config := page_config p;
     page_error := msg |}.

(** [res.ok] *)
Definition res_ok (r : Response) : bool := (200 <=? status r) && (status r <=? 299).

(** [data.error || fallback] *)
Definition error_or (r : Response) (fallback : string) : string :=
  match body r with
  | ErrorBody msg => if bool_decide (msg = "") then fallback else msg
  | _ => fallback
  end.

(** The [Map] that [fetchSquares] fills with [map.set] in the order of the
    response. *)
Definition squares_map (sqs : list Square) : Grid :=
  fold_left (fun m sq => <[(row_num sq, col_num sq) :=
                             {| email := sq_email sq; locked := sq_locked sq |}]> m)
            sqs ∅.

Definition fetchSquares (delivered : bool) (e : Env) (p : Page) (w : World)
    : Page * World :=
  let res := run e GET_squares w in
  (if delivered then
     if res_ok res.1 then
       match body res.1 with
       | GridBody sqs cfg =>
           {| page_squares := squares_map sqs;
              page_config := match cfg with Some c => Some c | None => page_config p end;
              page_error := page_error p |}
       | _ => set_error p (Some "Failed to load squares")
       end
     else set_error p (Some (error_or res.1 "Failed to load squares"))
   else set_error p (Some "Failed to load squares"),
   res.2).

(** [user?.email?.toLowerCase()] *)
Definition userEmail (u : User) : string := toLowerCase (user_email u).

Definition userLocked (user : option User) (p : Page) : bool :=
  match user with
  | Some u =>
      if bool_decide (userEmail u = "") then false
      else some_locked (userEmail u) (snd <$> map_to_list (page_squares p))
  | None => false
  end.

Definition userSquareCount (user : option User) (p : Page) : nat :=
  match user with
  | Some u =>
      if bool_decide (userEmail u = "") then 0%nat
      else length (List.filter (fun s => bool_decide (email s = userEmail u))
                               (snd <$> map_to_list (page_squares p)))
  | None => 0%nat
  end.

Definition handleSquareClick (delivered : bool) (e : Env) (user : option User)
    (row col : Z) (p : Page) (w : World) : Page * World :=
  match user with
  | None => (p, w)
  | Some u =>
      if userLocked user p then (p, w)
      else
        let existing := page_squares p !! (row, col) in
        match existing with
        | Some sq =>
            if negb (bool_decide (email sq = userEmail u)) then (p, w)
            else
              let res := run e (POST_squares user {| row := JNumber row;
                                                      col := JNumber col |}) w in
              (if delivered then
                 if res_ok res.1
                 then {| page_squares := delete (row, col) (page_squares p);
                         page_config := page_config p; page_error := None |}
                 else set_error p (Some (error_or res.1 "Failed to update square"))
               else set_error p (Some "Failed to update square"),
               res.2)
        | None =>
            let res := run e (POST_squares user {| row := JNumber row;
                                                    col := JNumber col |}) w in
            (if delivered then
               if res_ok res.1
               then {| page_squares :=
                         <[(row, col) := {| email := userEmail u; locked := false |}]>
                           (page_squares p);
                       page_config := page_config p; page_error := None |}
               else set_error p (Some (error_or res.1 "Failed to update square"))
             else set_error p (Some "Failed to update square"),
             res.2)
        end
  end.

(** [e] serves the lock-in and [e'] the listing that follows it. *)
Definition handleLockIn (delivered fetched : bool) (e e' : Env)
    (user : option User) (p : Page) (w : World) : Page * World :=
  match user with
  | None => (p, w)
  | Some u =>
      if userLocked user p || (userSquareCount user p =? 0)%nat then (p, w)
      else
        let res := run e (POST_lock user) w in
        if delivered then
          if res_ok res.1 then
            let pf := fetchSquares fetched e' (set_error p None) res.2 in
            (match body res.1 with
             | LockedBody _ (Some c) =>
                 {| page_squares := page_squares pf.1; page_config := Some c;
                    page_error := page_error pf.1 |}
             | _ => pf.1
             end, pf.2)
          else (set_error p (Some (error_or res.1 "Failed to lock squares")), res.2)
        else (set_error p (Some "Failed to lock squares"), res.2)
  end.

(** The page that shows the tables of [w]. *)
Definition page_of (w : World) : Page :=
  {| page_squares := squares (store w); page_config := config (store w);
     page_error := None |}.

Inductive Cursor := Pointer | DefaultCursor | NotAllowed.

(** The cursor the page gives the cell at [row], [col] (the page renders
    the grid for a signed-in user only). *)
Definition cell_cursor (u : User) (row col : Z) (p : Page) : Cursor :=
  match page_squares p !! (row, col) with
  | Some sq =>
      if bool_decide (email sq = userEmail u)
      then if userLocked (Some u) p then DefaultCursor else Pointer
      else NotAllowed
  | None => if userLocked (Some u) p then NotAllowed else Pointer
  end.
(** * Properties *)

(** ** The statements on the tables *)

Lemma locked_of_None (e : string) (m : Grid) :
  ¬ has_locked e m → locked_cells (cells_of e m) = ∅.
Proof.
  intros Hno. apply map_empty. intros k.
  unfold locked_cells, cells_of.
  apply map_lookup_filter_None. right. intros c Hc Hl.
  apply map_lookup_filter_Some in Hc as [Hc Ho].
  apply Hno. exists k, c. auto.
Qed.

Lemma locked_of_Some (e : string) (m : Grid) :
  has_locked e m →
  ∃ b, take 1 ((fun kc : Z * Z * Cell => locked kc.2) <$>
               map_to_list (locked_cells (cells_of e m))) = [b].
Proof.
  intros (k & c & Hk & He & Hl).
  assert (Hin : locked_cells (cells_of e m) !! k = Some c).
  { unfold locked_cells, cells_of.
    apply map_lookup_filter_Some. split; [|exact Hl].
    apply map_lookup_filter_Some. split; [exact Hk|exact He]. }
  apply elem_of_map_to_list in Hin.
  destruct (map_to_list (locked_cells (cells_of e m))) as [|x l].
  - inversion Hin.
  - simpl. destruct l; simpl; eauto.
Qed.

(** The conditional delete removes the row at the coordinate when the
    requester owns it... *)
Lemma delete_where_owned (r c : Z) (e : string) (m : Grid) (cell : Cell) :
  m !! (r, c) = Some cell → email cell = e →
  filter (fun kc : Z * Z * Cell => ¬ (kc.1 = (r, c) ∧ owned_by e kc.2)) m
  = delete (r, c) m.
Proof.
  intros Hm He. apply map_eq. intros k.
  destruct (decide (k = (r, c))) as [->|Hne].
  - rewrite lookup_delete_eq. apply map_lookup_filter_None. right.
    intros c' Hc' Hn. apply Hn. simpl. split; [done|]. unfold owned_by. congruence.
  - rewrite lookup_delete_ne by done.
    destruct (m !! k) as [c'|] eqn:Hk.
    + apply map_lookup_filter_Some. split; [done|]. simpl. intros [? _]. done.
    + apply map_lookup_filter_None. by left.
Qed.

(** ... and nothing otherwise. *)
Lemma delete_where_other (r c : Z) (e : string) (m : Grid) :
  (∀ cell, m !! (r, c) = Some cell → email cell ≠ e) →
  filter (fun kc : Z * Z * Cell => ¬ (kc.1 = (r, c) ∧ owned_by e kc.2)) m = m.
Proof.
  intros Hm. apply map_eq. intros k.
  destruct (m !! k) as [c'|] eqn:Hk.
  - apply map_lookup_filter_Some. split; [done|]. simpl.
    intros [-> Ho]. by apply (Hm c').
  - apply map_lookup_filter_None. by left.
Qed.

Lemma lookup_lock_where (e : string) (m : Grid) (k : Z * Z) :
  lock_where e m !! k
  = (fun c => if decide (owned_by e c) then lock c else c) <$> m !! k.
Proof. unfold lock_where. apply lookup_fmap. Qed.

Lemma in_grid_range (r c : Z) : 0 <= r <= 9 → 0 <= c <= 9 → in_grid r c = true.
Proof. intros. unfold in_grid. repeat (apply andb_true_intro; split); lia. Qed.

Lemma range_guard (r c : Z) :
  0 <= r <= 9 → 0 <= c <= 9 →
  (r <? 0) || (r >? 9) || (c <? 0) || (c >? 9) = false.
Proof.
  intros. rewrite !orb_false_iff. repeat split; lia.
Qed.

Lemma answer_ok (e : Env) (q : Query) (st : Store) :
  fault e q = false → answer e q st = exec q st.
Proof. intros H. unfold answer. by rewrite H. Qed.

Lemma answer_down (e : Env) (q : Query) (st : Store) :
  fault e q = true → answer e q st = (pg_err StoreDown, st).
Proof. intros H. unfold answer. by rewrite H. Qed.

(** How the store answers the already-locked guard of the toggle. *)
Lemma guard_unlocked (e : Env) (u : string) (st : Store) :
  ¬ has_locked u (squares st) →
  answer e (SelectLockedOf u) st = (pg_err StoreDown, st) ∨
  answer e (SelectLockedOf u) st = (pg_ok [], st).
Proof.
  intros Hno. unfold answer. destruct (fault e _); simpl; [auto|].
  rewrite (locked_of_None _ _ Hno), map_to_list_empty. auto.
Qed.

Lemma guard_locked (e : Env) (u : string) (st : Store) :
  has_locked u (squares st) → fault e (SelectLockedOf u) = false →
  ∃ b, answer e (SelectLockedOf u) st = (pg_ok [b], st).
Proof.
  intros Hl Hf. rewrite answer_ok by done. simpl.
  destruct (locked_of_Some _ _ Hl) as [b ->]. eauto.
Qed.

(** One node of a program at a time. *)
Ltac run_step :=
  cbn [run run_racing Prog_bind mbind mret Prog_mbind Prog_ret await fst snd
       store rng journal data error count pg_ok pg_err pg_done row col
       sendSquaresNotification Math_random Payload];
  repeat (progress change (alone ?q ?st) with st).

Ltac toggle_start :=
  unfold run, POST_squares; cbn [row col];
  rewrite ?range_guard by assumption; run_step.

(** [C1] The claim/release toggle, for an authenticated participant, a
    coordinate inside the grid and a store that carries out the read of the
    cell and the write: on a free cell of a participant with no locked cell
    it inserts (row, col, participant, locked = false) and answers
    [claimed]; on the participant's own unlocked cell it deletes that cell
    and answers [released]; on a cell of somebody else it answers 403 and
    changes nothing; on the participant's own locked cell it answers 403 and
    changes nothing. *)
Theorem toggle_claims_releases_or_refuses
    (e : Env) (u : User) (r c : Z) (w : World) :
  0 <= r <= 9 → 0 <= c <= 9 →
  fault e (SelectSquareSingle r c) = false →
  fault e (DeleteSquare r c (user_email u)) = false →
  fault e (InsertSquare r c (user_email u) false) = false →
  let m := squares (store w) in
  let res := run e (POST_squares (Some u) {| row := JNumber r; col := JNumber c |}) w in
  (¬ has_locked (user_email u) m → m !! (r, c) = None →
     res.1 = json (ActionBody "claimed" r c (Some (user_email u))) ∧
     squares (store res.2)
       = <[(r, c) := {| email := user_email u; locked := false |}]> m ∧
     config (store res.2) = config (store w)) ∧
  (¬ has_locked (user_email u) m →
     m !! (r, c) = Some {| email := user_email u; locked := false |} →
     res.1 = json (ActionBody "released" r c None) ∧
     squares (store res.2) = delete (r, c) m ∧
     config (store res.2) = config (store w)) ∧
  (¬ has_locked (user_email u) m →
     ∀ cell, m !! (r, c) = Some cell → email cell ≠ user_email u →
     res.1 = json_error "Square is taken by another user" 403 ∧
     store res.2 = store w) ∧
  (m !! (r, c) = Some {| email := user_email u; locked := true |} →
     status res.1 = 403 ∧ store res.2 = store w).
Proof.
  intros Hr Hc Fsel Fdel Fins m res. subst m res.
  repeat apply conj.
  - intros Hno Hm. toggle_start.
    destruct (guard_unlocked e _ (store w) Hno) as [-> | ->]; run_step;
      rewrite (answer_ok _ _ _ Fsel); cbn [exec Payload]; rewrite Hm; run_step;
      rewrite (answer_ok _ _ _ Fins); cbn [exec Payload];
      rewrite in_grid_range by assumption; cbn [negb]; rewrite Hm;
      run_step; auto.
  - intros Hno Hm. toggle_start.
    destruct (guard_unlocked e _ (store w) Hno) as [-> | ->]; run_step;
      rewrite (answer_ok _ _ _ Fsel); cbn [exec Payload]; rewrite Hm; run_step;
      cbn [email locked]; rewrite bool_decide_eq_true_2 by done; cbn [negb];
      run_step; rewrite (answer_ok _ _ _ Fdel); cbn [exec Payload]; run_step;
      (split; [done|split; [|done]]);
      by apply (delete_where_owned _ _ _ _ _ Hm).
  - intros Hno cell Hm Hne. toggle_start.
    destruct (guard_unlocked e _ (store w) Hno) as [-> | ->]; run_step;
      rewrite (answer_ok _ _ _ Fsel); cbn [exec Payload]; rewrite Hm; run_step;
      rewrite bool_decide_eq_false_2 by done; cbn [negb]; run_step; done.
  - intros Hm. toggle_start.
    destruct (fault e (SelectLockedOf (user_email u))) eqn:Fg.
    + rewrite (answer_down _ _ _ Fg). run_step.
      rewrite (answer_ok _ _ _ Fsel); cbn [exec Payload]; rewrite Hm; run_step.
      cbn [email locked]. rewrite bool_decide_eq_true_2 by done. cbn [negb].
      run_step. done.
    + destruct (guard_locked e (user_email u) (store w)) as [b ->]; [|done|].
      { exists (r, c). eexists. split; [exact Hm|done]. }
      run_step. done.
Qed.

Lemma range_guard_inv (r c : Z) :
  (r <? 0) || (r >? 9) || (c <? 0) || (c >? 9) = false →
  0 <= r <= 9 ∧ 0 <= c <= 9.
Proof. rewrite !orb_false_iff. lia. Qed.

Lemma failed_error (msg : string) (st : Z) : 400 <= st → failed (json_error msg st).
Proof. intros H. exact H. Qed.

#[local] Hint Resolve failed_error : core.

Ltac refuse := apply toggle_refused; [apply failed_error; lia | reflexivity].

(** What the store can answer to each statement of the toggle. *)
Lemma answer_read_only (e : Env) (q : Query) (st : Store) :
  match q with
  | SelectSquares | SelectConfigSingle | SelectLockedOf _
  | SelectSquareSingle _ _ | SelectByEmail _ | CountLocked => True
  | _ => False
  end → (answer e q st).2 = st.
Proof.
  unfold answer. destruct (fault e q); [done|]. by destruct q.
Qed.

Lemma answer_square_inv (e : Env) (r c : Z) (st st' : Store) d er cn :
  answer e (SelectSquareSingle r c) st
    = ({| data := d; error := er; count := cn |}, st') →
  st' = st ∧ ∀ sq, d = Some sq → squares st !! (r, c) = Some sq.
Proof.
  unfold answer. destruct (fault e _).
  - intros [= <- <- <- <-]. done.
  - cbn [exec Payload]. destruct (squares st !! (r, c)) as [x|].
    + intros [= <- <- <- <-]. by split.
    + intros [= <- <- <- <-]. done.
Qed.

Lemma answer_delete_inv (e : Env) (r c : Z) (u : string) (st st' : Store) d er cn :
  answer e (DeleteSquare r c u) st
    = ({| data := d; error := er; count := cn |}, st') →
  (er ≠ None ∧ st' = st) ∨
  (er = None ∧
   st' = {| squares := filter (fun kc : Z * Z * Cell =>
                         ¬ (kc.1 = (r, c) ∧ owned_by u kc.2)) (squares st);
            config := config st |}).
Proof.
  unfold answer. destruct (fault e _).
  - intros [= <- <- <- <-]. by left.
  - cbn [exec Payload]. intros [= <- <- <- <-]. by right.
Qed.

Lemma answer_insert_inv (e : Env) (r c : Z) (u : string) (l : bool)
    (st st' : Store) d er cn :
  answer e (InsertSquare r c u l) st
    = ({| data := d; error := er; count := cn |}, st') →
  (er ≠ None ∧ st' = st ∧
   (er = Some UniqueViolation → is_Some (squares st !! (r, c)))) ∨
  (er = None ∧ squares st !! (r, c) = None ∧
   st' = {| squares := <[(r, c) := {| email := u; locked := l |}]> (squares st);
            config := config st |}).
Proof.
  unfold answer. destruct (fault e _).
  - intros [= <- <- <- <-]. by left.
  - cbn [exec Payload]. destruct (negb (in_grid r c)).
    + intros [= <- <- <- <-]. by left.
    + destruct (squares st !! (r, c)) as [x|] eqn:Hm.
      * intros [= <- <- <- <-]. left. eauto.
      * intros [= <- <- <- <-]. by right.
Qed.

(** Every run of the toggle, whatever the store fails: it refuses and
    leaves the tables as they were, or it claims a free cell, or it releases
    the requester's own unlocked cell. *)
Lemma toggle_outcomes (e : Env) (user : option User) (b : ToggleBody) (w : World) :
  toggle_effect user b w (run e (POST_squares user b) w).
Proof.
  destruct user as [u|]; [|refuse].
  destruct b as [br bc].
  destruct br as [| |?|r|?]; try refuse.
  destruct bc as [| |?|c|?]; try refuse.
  unfold run, POST_squares; cbn [row col].
  destruct ((r <? 0) || (r >? 9) || (c <? 0) || (c >? 9)) eqn:Hrange; [refuse|].
  apply range_guard_inv in Hrange as [Hr Hc].
  run_step.
  pose proof (answer_read_only e (SelectLockedOf (user_email u)) (store w) I) as Hg.
  destruct (answer e (SelectLockedOf (user_email u)) (store w)) as [[gd ger gcn] st1].
  cbn in Hg. subst st1. run_step.
  assert (Hrest : toggle_effect (Some u) {| row := JNumber r; col := JNumber c |} w
    (run_racing alone e
       (existingSquare ← await (SelectSquareSingle r c);
        match data existingSquare with
        | Some sq =>
            if negb (bool_decide (email sq = user_email u))
            then mret (json_error "Square is taken by another user" 403)
            else if locked sq
            then mret (json_error "Cannot modify locked squares" 403)
            else
              del ← await (DeleteSquare r c (user_email u));
              match error del with
              | Some _ => mret (json_error "Failed to release square" 500)
              | None => mret (json (ActionBody "released" r c None))
              end
        | None =>
            ins ← await (InsertSquare r c (user_email u) false);
            match error ins with
            | Some _ => mret (json_error "Failed to claim square" 500)
            | None => mret (json (ActionBody "claimed" r c (Some (user_email u))))
            end
        end)
       {| store := store w; rng := rng w;
          journal := (journal w ++ [(SelectLockedOf (user_email u), ger)])%list |})).
  { run_step.
    destruct (answer e (SelectSquareSingle r c) (store w)) as [[d er cn] st1] eqn:Hsel.
    apply answer_square_inv in Hsel as [-> Hsel]. run_step.
    destruct d as [sq|].
    - specialize (Hsel sq eq_refl).
      destruct (bool_decide (email sq = user_email u)) eqn:Hown; cbn [negb]; [|refuse].
      apply bool_decide_eq_true_1 in Hown.
      destruct (locked sq) eqn:Hlk; [refuse|]. run_step.
      destruct (answer e (DeleteSquare r c (user_email u)) (store w))
        as [[d' er' cn'] st1] eqn:Hdel.
      apply answer_delete_inv in Hdel as [[Her ->]|[-> ->]]; run_step.
      + destruct er'; [refuse|done].
      + apply (toggle_released _ _ _ _ u r c);
          [reflexivity|reflexivity|assumption|assumption| |reflexivity|].
        * destruct sq as [se sl]; simpl in *; subst; exact Hsel.
        * cbn. f_equal. by eapply delete_where_owned.
    - run_step.
      destruct (answer e (InsertSquare r c (user_email u) false) (store w))
        as [[d' er' cn'] st1] eqn:Hins.
      apply answer_insert_inv in Hins as [(Her & -> & _)|(-> & Hm & ->)]; run_step.
      + destruct er'; [refuse|done].
      + by apply (toggle_claimed _ _ _ _ u r c). }
  destruct gd as [[|? ?]|]; try refuse; exact Hrest.
Qed.

(** ** Running composed programs *)

Lemma run_racing_bind {A B} (others : Query -> Store -> Store) (e : Env)
    (p : Prog A) (f : A -> Prog B) (w : World) :
  run_racing others e (Prog_bind f p) w
  = run_racing others e (f (run_racing others e p w).1) (run_racing others e p w).2.
Proof.
  revert w. induction p as [a|q k IH|k IH|em n k IH]; intros w; cbn.
  - reflexivity.
  - apply IH.
  - apply IH.
  - apply IH.
Qed.

(** The shuffle loop only consumes draws: one per round. *)
Lemma run_shuffle_from (others : Query -> Store -> Store) (e : Env)
    (i : nat) (arr : jsarray) (w : World) :
  run_racing others e (shuffle_from i arr) w
  = (shuffled (random e) (rng w) i arr,
     {| store := store w; rng := (rng w + i)%nat; journal := journal w |}).
Proof.
  revert arr w. induction i as [|i IH]; intros arr w.
  - cbn. destruct w. cbn. by rewrite Nat.add_0_r.
  - cbn [shuffle_from shuffled]. cbn -[js_swap floor_times]. rewrite IH. cbn [store rng journal].
    do 2 f_equal. lia.
Qed.

Lemma run_generateRandomSequence (others : Query -> Store -> Store) (e : Env)
    (w : World) :
  run_racing others e generateRandomSequence w
  = (shuffled (random e) (rng w) 9 digits,
     {| store := store w; rng := (rng w + 9)%nat; journal := journal w |}).
Proof. unfold generateRandomSequence. apply run_shuffle_from. Qed.

(** ** The statements of the lock-in *)

Lemma flags_nil (u : string) (m : Grid) :
  (fun kc : Z * Z * Cell => locked kc.2) <$> map_to_list (cells_of u m) = [] →
  ¬ has_cells u m.
Proof.
  intros Hnil (k & c & Hk & Hu).
  apply fmap_nil_inv in Hnil. apply map_to_list_empty_iff in Hnil.
  assert (Hin : cells_of u m !! k = Some c).
  { apply map_lookup_filter_Some. by split. }
  rewrite Hnil in Hin. by rewrite lookup_empty in Hin.
Qed.

Lemma flags_cons (u : string) (m : Grid) b l :
  (fun kc : Z * Z * Cell => locked kc.2) <$> map_to_list (cells_of u m) = b :: l →
  has_cells u m.
Proof.
  intros Hl. destruct (map_to_list (cells_of u m)) as [|[k c] rest] eqn:Hlist; [done|].
  assert (Hin : (k, c) ∈ map_to_list (cells_of u m)) by (rewrite Hlist; left).
  apply elem_of_map_to_list in Hin.
  apply map_lookup_filter_Some in Hin as [Hk Ho]. by exists k, c.
Qed.

Lemma flags_some_locked (u : string) (m : Grid) :
  existsb (fun s : bool => s)
    ((fun kc : Z * Z * Cell => locked kc.2) <$> map_to_list (cells_of u m)) = true
  ↔ has_locked u m.
Proof.
  rewrite existsb_exists. split.
  - intros (b & Hin & ->). apply list_elem_of_In in Hin.
    apply list_elem_of_fmap in Hin as ([k c] & Hb & Hin).
    apply elem_of_map_to_list in Hin.
    apply map_lookup_filter_Some in Hin as [Hk Ho]. by exists k, c.
  - intros (k & c & Hk & Hu & Hl). exists true. split; [|done].
    apply list_elem_of_In, list_elem_of_fmap. exists (k, c). split; [done|].
    apply elem_of_map_to_list, map_lookup_filter_Some. by split.
Qed.

Lemma answer_fetch_inv (e : Env) (u : string) (st st' : Store) d er cn :
  answer e (SelectByEmail u) st = ({| data := d; error := er; count := cn |}, st') →
  st' = st ∧
  (er ≠ None ∧ fault e (SelectByEmail u) = true ∨
   er = None ∧ fault e (SelectByEmail u) = false ∧
   d = Some ((fun kc : Z * Z * Cell => locked kc.2)
               <$> map_to_list (cells_of u (squares st)))).
Proof.
  unfold answer. destruct (fault e _).
  - intros [= <- <- <- <-]. split; [done|]. by left.
  - cbn [exec Payload]. intros [= <- <- <- <-]. split; [done|]. by right.
Qed.

Lemma answer_update_inv (e : Env) (u : string) (st st' : Store) d er cn :
  answer e (UpdateLocked u) st = ({| data := d; error := er; count := cn |}, st') →
  (er ≠ None ∧ st' = st ∧ fault e (UpdateLocked u) = true) ∨
  (er = None ∧ fault e (UpdateLocked u) = false ∧
   st' = {| squares := lock_where u (squares st); config := config st |}).
Proof.
  unfold answer. destruct (fault e _).
  - intros [= <- <- <- <-]. by left.
  - cbn [exec Payload]. intros [= <- <- <- <-]. by right.
Qed.

Lemma answer_count_inv (e : Env) (st st' : Store) d er cn :
  answer e CountLocked st = ({| data := d; error := er; count := cn |}, st') →
  st' = st ∧
  (cn = Some 100%nat →
   fault e CountLocked = false ∧ size (locked_cells (squares st)) = 100%nat).
Proof.
  unfold answer. destruct (fault e _).
  - intros [= <- <- <- <-]. done.
  - cbn [exec Payload]. intros [= <- <- <- <-]. split; [done|]. by intros [= ->].
Qed.

Lemma answer_config_inv (e : Env) (st st' : Store) d er cn :
  answer e SelectConfigSingle st = ({| data := d; error := er; count := cn |}, st') →
  st' = st ∧
  match d with
  | Some c => config st = Some c
  | None => config st = None ∨ fault e SelectConfigSingle = true
  end.
Proof.
  unfold answer. destruct (fault e _).
  - intros [= <- <- <- <-]. split; [done|]. by right.
  - cbn [exec Payload]. destruct (config st) as [c|]; intros [= <- <- <- <-]; auto.
Qed.

Lemma answer_insert_config_inv (e : Env) (c : Config) (st st' : Store) d er cn :
  answer e (InsertConfig c) st = ({| data := d; error := er; count := cn |}, st') →
  (er ≠ None ∧ st' = st) ∨
  (er = None ∧ d = Some c ∧ config st = None ∧
   st' = {| squares := squares st; config := Some c |}).
Proof.
  unfold answer. destruct (fault e _).
  - intros [= <- <- <- <-]. by left.
  - cbn [exec Payload]. destruct (config st) as [c0|]; intros [= <- <- <- <-]; auto.
Qed.

Lemma sent_app (w : World) s r (l : list (Query * option PgError)) :
  sent w {| store := s; rng := r; journal := (journal w ++ l)%list |} = l.
Proof. unfold sent. cbn [journal]. by rewrite drop_app_length. Qed.

Ltac journal_sent :=
  run_step; rewrite <- ?app_assoc; rewrite ?sent_app; cbn [app].

Lemma sent_nothing (w : World) : sent w w = [].
Proof. unfold sent. apply drop_all. Qed.

Ltac not_attempted :=
  let H := fresh in
  intros [H|H]; [by apply H|];
  revert H; first [rewrite sent_nothing | journal_sent]; cbn; discriminate.

Ltac lock_refuse :=
  apply lock_refused;
  [ apply failed_error; lia | reflexivity | not_attempted
  | let u' := fresh in let H := fresh in intros u' H; injection H as <-; auto ].

(** Every run of the lock-in, whatever the store fails: it refuses and
    leaves the tables as they were, or it locks every cell of the caller,
    who had cells and none of them locked; the configuration row is then
    left as it was, unless the grid has its 100 cells locked and the read of
    the row returned nothing: then the next 18 draws make a pair of
    sequences and the insert of the row is sent. *)
Lemma lock_outcomes (e : Env) (user : option User) (w : World) :
  lock_effect e user w (run e (POST_lock user) w).
Proof.
  destruct user as [u|];
    [|apply lock_refused; [apply failed_error; lia|reflexivity|not_attempted|done]].
  unfold run, POST_lock. run_step.
  destruct (answer e (SelectByEmail (user_email u)) (store w))
    as [[d er cn] st1] eqn:Hfetch.
  apply answer_fetch_inv in Hfetch as [-> [[Her Hf]|(-> & Ffetch & ->)]]; run_step.
  { destruct er; [lock_refuse|done]. }
  destruct (_ <$> map_to_list (cells_of (user_email u) (squares (store w))))
    as [|b l] eqn:Hflags.
  { apply flags_nil in Hflags. lock_refuse. }
  pose proof (flags_cons _ _ _ _ Hflags) as Hcells.
  rewrite <- Hflags.
  destruct (existsb _ _) eqn:Hsome.
  { apply flags_some_locked in Hsome. lock_refuse. }
  assert (Hnone : ¬ has_locked (user_email u) (squares (store w))).
  { intros Hl. apply flags_some_locked in Hl. congruence. }
  run_step.
  destruct (answer e (UpdateLocked (user_email u)) (store w))
    as [[d1 er1 cn1] st1] eqn:Hupd.
  apply answer_update_inv in Hupd as [(Her & -> & Hf)|(-> & Fupd & ->)]; run_step.
  { destruct er1; [lock_refuse|done]. }
  set (st1 := {| squares := lock_where (user_email u) (squares (store w));
                 config := config (store w) |}).
  destruct (answer e CountLocked st1) as [[d2 er2 cn2] st2] eqn:Hcount.
  apply answer_count_inv in Hcount as [-> Hcount]. run_step.
  destruct (bool_decide (cn2 = Some 100%nat)) eqn:Hfull.
  2:{ run_step. eapply (lock_plain _ _ _ _ u); eauto. not_attempted. }
  apply bool_decide_eq_true_1 in Hfull. destruct (Hcount Hfull) as [_ Hsize].
  run_step.
  destruct (answer e SelectConfigSingle st1) as [[d3 er3 cn3] st3] eqn:Hread.
  apply answer_config_inv in Hread as [-> Hread]. run_step.
  destruct d3 as [c|].
  { run_step. eapply (lock_plain _ _ _ _ u); eauto. not_attempted. }
  rewrite run_racing_bind, run_generateRandomSequence. cbn [fst snd].
  rewrite run_racing_bind, run_generateRandomSequence. cbn [fst snd].
  run_step. fold (generated e w).
  unfold answer. 
  destruct (fault e (InsertConfig (generated e w))) eqn:Fins; run_step.
  - eapply (lock_generating _ _ _ _ u); eauto;
      first [ by (cbn; lia) | by (journal_sent; rewrite Fins)
            | by (right; repeat split; auto) ].
  - cbn [exec Payload]. cbn [config st1].
    assert (Hread' : config (store w) = None ∨ fault e SelectConfigSingle = true)
      by exact Hread.
    destruct (config (store w)) as [c|] eqn:Hcfg; run_step;
      (eapply (lock_generating _ _ _ _ u); eauto;
       try first [ by (cbn; lia) | by (journal_sent; rewrite Fins, ?Hcfg)
             | by (rewrite ?Hcfg; right; repeat split; auto)
             | by (rewrite ?Hcfg; left; repeat split; auto)
             | by (rewrite Hcfg; exact Hread') ]).
Qed.

(** ** Frame of the toggle *)

Lemma failed_not_ok (r : Response) : failed r → status r = 200 → False.
Proof. unfold failed. lia. Qed.

(** [C8] A successful toggle on (row, col) changes the cell at (row, col)
    and nothing else: it either inserts the row (row, col, participant,
    locked = false) where there was none, or deletes the participant's own
    unlocked row there; every other coordinate keeps its row, and the
    configuration is untouched. *)
Theorem toggle_touches_one_cell
    (e : Env) (user : option User) (b : ToggleBody) (w : World) :
  let res := run e (POST_squares user b) w in
  status res.1 = 200 →
  ∃ u r c, user = Some u ∧ b = {| row := JNumber r; col := JNumber c |} ∧
    (∀ k, k ≠ (r, c) → squares (store res.2) !! k = squares (store w) !! k) ∧
    config (store res.2) = config (store w) ∧
    (body res.1 = ActionBody "claimed" r c (Some (user_email u)) ∧
       squares (store w) !! (r, c) = None ∧
       squares (store res.2)
         = <[(r, c) := {| email := user_email u; locked := false |}]>
             (squares (store w))
     ∨
     body res.1 = ActionBody "released" r c None ∧
       squares (store w) !! (r, c)
         = Some {| email := user_email u; locked := false |} ∧
       squares (store res.2) = delete (r, c) (squares (store w))).
Proof.
  intros res Hok. subst res.
  destruct (toggle_outcomes e user b w)
    as [Hfail _ | u r c -> -> Hr Hc Hm Hres Hst | u r c -> -> Hr Hc Hm Hres Hst].
  - destruct (failed_not_ok _ Hfail Hok).
  - exists u, r, c. rewrite Hst, Hres. cbn [squares config body json].
    repeat split; auto. intros k Hk. by rewrite lookup_insert_ne.
  - exists u, r, c. rewrite Hst, Hres. cbn [squares config body json].
    repeat split; auto. intros k Hk. by rewrite lookup_delete_ne.
Qed.

Lemma toggle_touches_one_cell_witness :
  status (run reliable (POST_squares (Some alice) (at_ 3 4)) fresh).1 = 200 ∧
  ∃ u r c, Some alice = Some u ∧ at_ 3 4 = {| row := JNumber r; col := JNumber c |} ∧
    (∀ k, k ≠ (r, c) →
       squares (store (run reliable (POST_squares (Some alice) (at_ 3 4)) fresh).2) !! k
       = squares (store fresh) !! k) ∧
    config (store (run reliable (POST_squares (Some alice) (at_ 3 4)) fresh).2)
      = config (store fresh) ∧
    (body (run reliable (POST_squares (Some alice) (at_ 3 4)) fresh).1
       = ActionBody "claimed" r c (Some (user_email u)) ∧
       squares (store fresh) !! (r, c) = None ∧
       squares (store (run reliable (POST_squares (Some alice) (at_ 3 4)) fresh).2)
         = <[(r, c) := {| email := user_email u; locked := false |}]>
             (squares (store fresh))
     ∨
     body (run reliable (POST_squares (Some alice) (at_ 3 4)) fresh).1
       = ActionBody "released" r c None ∧
       squares (store fresh) !! (r, c)
         = Some {| email := user_email u; locked := false |} ∧
       squares (store (run reliable (POST_squares (Some alice) (at_ 3 4)) fresh).2)
         = delete (r, c) (squares (store fresh))).
Proof.
  split; [reflexivity|].
  apply (toggle_touches_one_cell reliable (Some alice) (at_ 3 4) fresh).
  reflexivity.
Defined.

(** ** Frame of the lock-in *)

Lemma lock_where_owned (u : string) (m : Grid) (k : Z * Z) (cell : Cell) :
  m !! k = Some cell → email cell = u →
  lock_where u m !! k = Some {| email := email cell; locked := true |}.
Proof.
  intros Hk Hu. rewrite lookup_lock_where, Hk. cbn.
  by rewrite decide_True.
Qed.

Lemma lock_where_other (u : string) (m : Grid) (k : Z * Z) (cell : Cell) :
  m !! k = Some cell → email cell ≠ u → lock_where u m !! k = Some cell.
Proof.
  intros Hk Hu. rewrite lookup_lock_where, Hk. cbn.
  by rewrite decide_False.
Qed.

Lemma lock_where_None (u : string) (m : Grid) (k : Z * Z) :
  m !! k = None → lock_where u m !! k = None.
Proof. intros Hk. by rewrite lookup_lock_where, Hk. Qed.

Lemma lock_where_locked (u : string) (m : Grid) (k : Z * Z) (cell : Cell) :
  m !! k = Some cell → locked cell = true → lock_where u m !! k = Some cell.
Proof.
  intros Hk Hl. rewrite lookup_lock_where, Hk. cbn.
  destruct (decide (owned_by u cell)); [|done].
  destruct cell as [em lk]. cbn in *. by subst.
Qed.

Lemma lock_effect_squares (e : Env) (user : option User) (w : World)
    (res : Response * World) :
  lock_effect e user w res → status res.1 = 200 →
  ∃ u, user = Some u ∧
    has_cells (user_email u) (squares (store w)) ∧
    ¬ has_locked (user_email u) (squares (store w)) ∧
    squares (store res.2) = lock_where (user_email u) (squares (store w)).
Proof.
  intros [Hfail _ _ _ | u n shown -> _ _ Hc Hn _ Hst _ _
         | u n shown -> _ _ Hc Hn _ Hst _ _ _ _ _] Hok.
  - destruct (failed_not_ok _ Hfail Hok).
  - exists u. by rewrite Hst.
  - by exists u.
Qed.

(** [C9] A successful lock-in creates no cell, deletes no cell and changes
    no owner: every cell of the caller gets [locked = true], every cell of
    anybody else is left exactly as it was. *)
Theorem lock_in_only_sets_flags (e : Env) (user : option User) (w : World) :
  let res := run e (POST_lock user) w in
  status res.1 = 200 →
  ∃ u, user = Some u ∧
    dom (squares (store res.2)) = dom (squares (store w)) ∧
    (∀ k, squares (store w) !! k = None → squares (store res.2) !! k = None) ∧
    (∀ k cell, squares (store w) !! k = Some cell → email cell = user_email u →
       squares (store res.2) !! k
         = Some {| email := email cell; locked := true |}) ∧
    (∀ k cell, squares (store w) !! k = Some cell → email cell ≠ user_email u →
       squares (store res.2) !! k = Some cell).
Proof.
  intros res Hok. subst res.
  destruct (lock_effect_squares _ _ _ _ (lock_outcomes e user w) Hok)
    as (u & -> & _ & _ & Hst).
  exists u. rewrite Hst. split; [done|]. split; [|split; [|split]].
  - unfold lock_where. apply dom_fmap_L.
  - intros k. apply lock_where_None.
  - intros k cell. apply lock_where_owned.
  - intros k cell. apply lock_where_other.
Qed.

Lemma lock_in_only_sets_flags_witness :
  let res := run reliable (POST_lock (Some alice)) two_owners in
  status res.1 = 200 ∧
  ∃ u, Some alice = Some u ∧
    dom (squares (store res.2)) = dom (squares (store two_owners)) ∧
    (∀ k, squares (store two_owners) !! k = None → squares (store res.2) !! k = None) ∧
    (∀ k cell, squares (store two_owners) !! k = Some cell →
       email cell = user_email u →
       squares (store res.2) !! k
         = Some {| email := email cell; locked := true |}) ∧
    (∀ k cell, squares (store two_owners) !! k = Some cell →
       email cell ≠ user_email u →
       squares (store res.2) !! k = Some cell).
Proof.
  split; [reflexivity|].
  apply (lock_in_only_sets_flags reliable (Some alice) two_owners).
  reflexivity.
Defined.

(** ** Guards of the lock-in *)

Ltac lock_start F :=
  unfold run, POST_lock; run_step; rewrite (answer_ok _ _ _ F);
  cbn [exec Payload]; run_step.

Lemma lock_without_cells (e : Env) (u : User) (w : World) :
  fault e (SelectByEmail (user_email u)) = false →
  ¬ has_cells (user_email u) (squares (store w)) →
  run e (POST_lock (Some u)) w
  = (json_error "You have no squares to lock" 400,
     {| store := store w; rng := rng w;
        journal := (journal w ++ [(SelectByEmail (user_email u), None)])%list |}).
Proof.
  intros Ffetch Hnone. lock_start Ffetch.
  destruct (_ <$> map_to_list (cells_of (user_email u) (squares (store w))))
    as [|b l] eqn:Hflags; [done|].
  destruct Hnone. by eapply flags_cons.
Qed.

Lemma lock_when_locked (e : Env) (u : User) (w : World) :
  fault e (SelectByEmail (user_email u)) = false →
  has_locked (user_email u) (squares (store w)) →
  run e (POST_lock (Some u)) w
  = (json_error "Your squares are already locked" 400,
     {| store := store w; rng := rng w;
        journal := (journal w ++ [(SelectByEmail (user_email u), None)])%list |}).
Proof.
  intros Ffetch Hl. lock_start Ffetch.
  apply flags_some_locked in Hl.
  destruct (_ <$> map_to_list (cells_of (user_email u) (squares (store w))))
    as [|b l] eqn:Hflags; [discriminate Hl|].
  by rewrite Hl.
Qed.

Lemma lock_update_down (e : Env) (u : User) (w : World) :
  fault e (SelectByEmail (user_email u)) = false →
  has_cells (user_email u) (squares (store w)) →
  ¬ has_locked (user_email u) (squares (store w)) →
  fault e (UpdateLocked (user_email u)) = true →
  run e (POST_lock (Some u)) w
  = (json_error "Failed to lock squares" 500,
     {| store := store w; rng := rng w;
        journal := (journal w ++ [(SelectByEmail (user_email u), None);
                                  (UpdateLocked (user_email u), Some StoreDown)])%list |}).
Proof.
  intros Ffetch Hcells Hnone Fupd. lock_start Ffetch.
  destruct (_ <$> map_to_list (cells_of (user_email u) (squares (store w))))
    as [|b l] eqn:Hflags.
  { destruct (flags_nil _ _ Hflags Hcells). }
  rewrite <- Hflags.
  destruct (existsb _ _) eqn:Hsome.
  { apply flags_some_locked in Hsome. done. }
  run_step. rewrite (answer_down _ _ _ Fupd). run_step.
  by rewrite <- app_assoc.
Qed.

Lemma lock_goes_through (e : Env) (u : User) (w : World) :
  fault e (SelectByEmail (user_email u)) = false →
  has_cells (user_email u) (squares (store w)) →
  ¬ has_locked (user_email u) (squares (store w)) →
  fault e (UpdateLocked (user_email u)) = false →
  status (run e (POST_lock (Some u)) w).1 = 200 ∧
  squares (store (run e (POST_lock (Some u)) w).2)
    = lock_where (user_email u) (squares (store w)).
Proof.
  intros Ffetch Hcells Hnone Fupd.
  destruct (lock_outcomes e (Some u) w)
    as [_ _ _ Hwhy | u' n shown [= <-] _ _ _ _ Hres Hst _ _
       | u' n shown [= <-] _ _ _ _ Hres Hst _ _ _ _ _].
  - destruct (Hwhy u eq_refl) as [H|[H|[H|H]]]; congruence.
  - by rewrite Hres, Hst.
  - by rewrite Hres, Hst.
Qed.

(** [C4] With the caller's cells read from the store: a caller without
    cells is answered 400 and nothing changes; a caller with a locked cell
    is answered 400 and nothing changes; otherwise the single update sets
    [locked = true] on every cell of the caller, or, when the store fails
    it, on none of them. *)
Theorem lock_in_guards (e : Env) (u : User) (w : World) :
  fault e (SelectByEmail (user_email u)) = false →
  let m := squares (store w) in
  let res := run e (POST_lock (Some u)) w in
  (¬ has_cells (user_email u) m →
     res.1 = json_error "You have no squares to lock" 400 ∧ store res.2 = store w) ∧
  (has_locked (user_email u) m →
     res.1 = json_error "Your squares are already locked" 400 ∧
     store res.2 = store w) ∧
  (has_cells (user_email u) m → ¬ has_locked (user_email u) m →
     (fault e (UpdateLocked (user_email u)) = false →
        status res.1 = 200 ∧
        squares (store res.2) = lock_where (user_email u) m ∧
        ∀ k cell, m !! k = Some cell → email cell = user_email u →
          squares (store res.2) !! k
            = Some {| email := email cell; locked := true |}) ∧
     (fault e (UpdateLocked (user_email u)) = true →
        res.1 = json_error "Failed to lock squares" 500 ∧ store res.2 = store w)).
Proof.
  intros Ffetch m res. subst m res. repeat apply conj.
  - intros Hnone. by rewrite lock_without_cells.
  - intros Hl. by rewrite lock_when_locked.
  - intros Hcells Hnone. split; intros Fupd.
    + destruct (lock_goes_through e u w) as [Hok Hst]; try done.
      rewrite Hst. repeat split; [done|].
      intros k cell. apply lock_where_owned.
    + by rewrite lock_update_down.
Qed.

Lemma no_cells_in_empty (u : string) : ¬ has_cells u (∅ : Grid).
Proof. intros (k & c & Hk & _). by rewrite lookup_empty in Hk. Qed.

Lemma no_locked_in_empty (u : string) : ¬ has_locked u (∅ : Grid).
Proof. intros (k & c & Hk & _). by rewrite lookup_empty in Hk. Qed.

Lemma lock_in_guards_witness :
  (run reliable (POST_lock (Some alice)) fresh).1
  = json_error "You have no squares to lock" 400.
Proof.
  exact (proj1 (proj1 (lock_in_guards reliable alice fresh eq_refl)
                  (no_cells_in_empty _))).
Defined.

Lemma toggle_claims_releases_or_refuses_witness :
  (run reliable (POST_squares (Some alice) (at_ 3 4)) fresh).1
  = json (ActionBody "claimed" 3 4 (Some (user_email alice))).
Proof.
  refine (proj1 (proj1 (toggle_claims_releases_or_refuses reliable alice 3 4 fresh
                          _ _ eq_refl eq_refl eq_refl)
                   (no_locked_in_empty _) _)); [lia|lia|reflexivity].
Defined.

(** ** Lock finality *)

(** The guard of the toggle, when the store answers its read. *)
Lemma toggle_when_locked (e : Env) (u : User) (b : ToggleBody) (w : World) :
  fault e (SelectLockedOf (user_email u)) = false →
  has_locked (user_email u) (squares (store w)) →
  failed (run e (POST_squares (Some u) b) w).1 ∧
  store (run e (POST_squares (Some u) b) w).2 = store w ∧
  (∀ r c, b = {| row := JNumber r; col := JNumber c |} →
     0 <= r <= 9 → 0 <= c <= 9 →
     (run e (POST_squares (Some u) b) w).1
     = json_error "You have already locked in your squares" 403).
Proof.
  intros Fg Hl.
  destruct b as [br bc].
  destruct br as [| |?|r|?];
    try (split; [apply failed_error; lia|split; [reflexivity|intros ? ? [=]]]).
  destruct bc as [| |?|c|?];
    try (split; [apply failed_error; lia|split; [reflexivity|intros ? ? [=]]]).
  unfold run, POST_squares; cbn [row col].
  destruct ((r <? 0) || (r >? 9) || (c <? 0) || (c >? 9)) eqn:Hrange.
  - split; [apply failed_error; lia|split; [reflexivity|]].
    intros r' c' [= <- <-] Hr Hc. rewrite range_guard in Hrange by done. done.
  - run_step. destruct (guard_locked e _ (store w) Hl Fg) as [x ->]. run_step.
    split; [apply failed_error; lia|split; [reflexivity|done]].
Qed.

(** The listing only reads. *)
Lemma get_reads_only (e : Env) (w : World) : store (run e GET_squares w).2 = store w.
Proof.
  unfold run, GET_squares. run_step.
  pose proof (answer_read_only e SelectSquares (store w) I) as Hs.
  destruct (answer e SelectSquares (store w)) as [x st1]. cbn in Hs. subst st1.
  run_step.
  pose proof (answer_read_only e SelectConfigSingle (store w) I) as Hc.
  destruct (answer e SelectConfigSingle (store w)) as [y st2]. cbn in Hc. subst st2.
  run_step. destruct x as [dx [ex|] cx]; run_step; reflexivity.
Qed.





(** ** Generation of the configuration *)







(** ** The shuffle *)

Section Shuffle.

Variable draw : nat -> rnd.











End Shuffle.


(** ** The administrative lock *)





(** ** A lost race on the insert *)

Ltac absurd_sent H :=
  revert H; journal_sent; rewrite ?elem_of_cons, ?elem_of_nil;
  intros H; decompose [or] H; try discriminate; try done.

Lemma sent_nothing_racing (w : World) (x : Query * option PgError) :
  x ∈ sent w w → False.
Proof. rewrite sent_nothing. apply not_elem_of_nil. Qed.

(** In any interleaving with other requests and whatever the store fails:
    when the insert of a claim is rejected, the toggle answers 500 "Failed
    to claim square" and has itself changed nothing. *)
Lemma rejected_insert_is_500
    (others : Query -> Store -> Store) (e : Env) (u : User) (r c : Z) (w : World)
    (err : PgError) :
  (InsertSquare r c (user_email u) false, Some err)
    ∈ sent w (run_racing others e
                (POST_squares (Some u) {| row := JNumber r; col := JNumber c |}) w).2 →
  (run_racing others e
     (POST_squares (Some u) {| row := JNumber r; col := JNumber c |}) w).1
  = json_error "Failed to claim square" 500 ∧
  store (run_racing others e
     (POST_squares (Some u) {| row := JNumber r; col := JNumber c |}) w).2
  = others (InsertSquare r c (user_email u) false)
      (others (SelectSquareSingle r c)
         (others (SelectLockedOf (user_email u)) (store w))) ∧
  (err = UniqueViolation →
   is_Some (squares (store (run_racing others e
     (POST_squares (Some u) {| row := JNumber r; col := JNumber c |}) w).2)
            !! (r, c))).
Proof.
  unfold POST_squares; cbn [row col].
  destruct ((r <? 0) || (r >? 9) || (c <? 0) || (c >? 9)) eqn:Hrange.
  { intros H. destruct (sent_nothing_racing _ _ H). }
  run_step.
  pose proof (answer_read_only e (SelectLockedOf (user_email u))
                (others (SelectLockedOf (user_email u)) (store w)) I) as Hg.
  destruct (answer e (SelectLockedOf (user_email u))
              (others (SelectLockedOf (user_email u)) (store w)))
    as [[gd ger gcn] st1].
  cbn in Hg. subst st1. run_step.
  set (st1 := others (SelectLockedOf (user_email u)) (store w)).
  assert (Hrest : ∀ j,
    let res := run_racing others e
       (existingSquare ← await (SelectSquareSingle r c);
        match data existingSquare with
        | Some sq =>
            if negb (bool_decide (email sq = user_email u))
            then mret (json_error "Square is taken by another user" 403)
            else if locked sq
            then mret (json_error "Cannot modify locked squares" 403)
            else
              del ← await (DeleteSquare r c (user_email u));
              match error del with
              | Some _ => mret (json_error "Failed to release square" 500)
              | None => mret (json (ActionBody "released" r c None))
              end
        | None =>
            ins ← await (InsertSquare r c (user_email u) false);
            match error ins with
            | Some _ => mret (json_error "Failed to claim square" 500)
            | None => mret (json (ActionBody "claimed" r c (Some (user_email u))))
            end
        end)
       {| store := st1; rng := rng w; journal := (journal w ++ [j])%list |} in
    (InsertSquare r c (user_email u) false, Some err) ∈ sent w res.2 →
    j.1 = SelectLockedOf (user_email u) →
    res.1 = json_error "Failed to claim square" 500 ∧
    store res.2 = others (InsertSquare r c (user_email u) false)
                    (others (SelectSquareSingle r c) st1) ∧
    (err = UniqueViolation → is_Some (squares (store res.2) !! (r, c)))).
  { intros [jq je] res Hin Hj. cbn in Hj. subst jq res. revert Hin. run_step.
    pose proof (answer_read_only e (SelectSquareSingle r c)
                  (others (SelectSquareSingle r c) st1) I) as Hs.
    destruct (answer e (SelectSquareSingle r c) (others (SelectSquareSingle r c) st1))
      as [[d er cn] st2].
    cbn in Hs. subst st2. run_step.
    destruct d as [sq|].
    - destruct (negb (bool_decide (email sq = user_email u)));
        [intros H; absurd_sent H|].
      destruct (locked sq); [intros H; absurd_sent H|]. run_step.
      destruct (answer e (DeleteSquare r c (user_email u)) _) as [[d' er' cn'] st3].
      run_step. destruct er'; run_step; intros H; absurd_sent H.
    - run_step.
      destruct (answer e (InsertSquare r c (user_email u) false) _)
        as [[d' er' cn'] st3] eqn:Hins.
      apply answer_insert_inv in Hins as [(Her & -> & Huniq)|(-> & Hm & ->)]; run_step.
      + destruct er' as [err'|]; [|done]. run_step. intros H.
        split; [done|]. split; [done|]. intros ->. apply Huniq.
        revert H. journal_sent. rewrite !elem_of_cons, elem_of_nil.
        intros [H|[H|[H|[]]]]; try discriminate. by injection H as <-.
      + intros H; absurd_sent H. }
  destruct gd as [[|? ?]|].
  - intros H. by apply (Hrest (_, ger)).
  - run_step. intros H; absurd_sent H.
  - intros H. by apply (Hrest (_, ger)).
Qed.

(** [C5] When the insert of a claim is rejected because the coordinate
    already has a row (the claimant lost the race), the toggle answers 500
    "Failed to claim square", the answer it gives to every failed insert,
    and not 403; the request itself has changed nothing and the coordinate
    stays occupied. *)
Theorem lost_race_answers_500
    (others : Query -> Store -> Store) (e : Env) (u : User) (r c : Z) (w : World) :
  let res := run_racing others e
               (POST_squares (Some u) {| row := JNumber r; col := JNumber c |}) w in
  (InsertSquare r c (user_email u) false, Some UniqueViolation) ∈ sent w res.2 →
  res.1 = json_error "Failed to claim square" 500 ∧
  status res.1 ≠ 403 ∧
  store res.2
    = others (InsertSquare r c (user_email u) false)
        (others (SelectSquareSingle r c)
           (others (SelectLockedOf (user_email u)) (store w))) ∧
  is_Some (squares (store res.2) !! (r, c)).
Proof.
  intros res Hin. subst res.
  destruct (rejected_insert_is_500 others e u r c w UniqueViolation Hin)
    as (Hres & Hst & Hcell).
  rewrite Hres. repeat split; [done|done|by apply Hcell].
Qed.

Lemma lost_race_answers_500_witness :
  (run_racing (alice_claims_first 3 4) reliable
     (POST_squares (Some bob) (at_ 3 4)) fresh).1
  = json_error "Failed to claim square" 500.
Proof.
  refine (proj1 (lost_race_answers_500 (alice_claims_first 3 4) reliable bob 3 4
                   fresh _)).
  vm_compute. do 2 right. left.
Defined.

(** Bob reads the cell (3,4) free, Alice's claim of it is committed, Bob's
    insert is rejected by the uniqueness constraint: Bob is answered 500,
    not 403. *)
Lemma lost_race_is_not_answered_403 :
  sent fresh (run_racing (alice_claims_first 3 4) reliable
                (POST_squares (Some bob) (at_ 3 4)) fresh).2
  = [(SelectLockedOf (user_email bob), None);
     (SelectSquareSingle 3 4, Some NoRows);
     (InsertSquare 3 4 (user_email bob) false, Some UniqueViolation)] ∧
  squares (store (run_racing (alice_claims_first 3 4) reliable
                    (POST_squares (Some bob) (at_ 3 4)) fresh).2) !! (3, 4)
  = Some (cell_of alice false) ∧
  status (run_racing (alice_claims_first 3 4) reliable
            (POST_squares (Some bob) (at_ 3 4)) fresh).1 = 500 ∧
  status (run_racing (alice_claims_first 3 4) reliable
            (POST_squares (Some bob) (at_ 3 4)) fresh).1 ≠ 403.
Proof. vm_compute. repeat split; discriminate. Qed.

(** ** Store failures *)

Lemma get_squares_down (e : Env) (w : World) :
  fault e SelectSquares = true →
  (run e GET_squares w).1 = json_error "Failed to fetch squares" 500 ∧
  store (run e GET_squares w).2 = store w.
Proof.
  intros F. unfold run, GET_squares. run_step. rewrite (answer_down _ _ _ F). run_step.
  pose proof (answer_read_only e SelectConfigSingle (store w) I) as Hc.
  destruct (answer e SelectConfigSingle (store w)) as [x st'].
  cbn in Hc. subst st'. run_step. done.
Qed.

Lemma get_config_down (e : Env) (w : World) :
  fault e SelectSquares = false → fault e SelectConfigSingle = true →
  (run e GET_squares w).1
  = json (GridBody (to_square <$> map_to_list (squares (store w))) None) ∧
  store (run e GET_squares w).2 = store w.
Proof.
  intros Fs Fc. unfold run, GET_squares. run_step.
  rewrite (answer_ok _ _ _ Fs). cbn [exec Payload]. run_step.
  rewrite (answer_down _ _ _ Fc). run_step. done.
Qed.

(** Whenever the delete of a release fails, the toggle answers 500 and the
    cell is still there. *)
Lemma failed_delete_is_500 (e : Env) (u : User) (r c : Z) (w : World) (err : PgError) :
  (DeleteSquare r c (user_email u), Some err)
    ∈ sent w (run e (POST_squares (Some u) {| row := JNumber r; col := JNumber c |}) w).2 →
  (run e (POST_squares (Some u) {| row := JNumber r; col := JNumber c |}) w).1
  = json_error "Failed to release square" 500 ∧
  store (run e (POST_squares (Some u) {| row := JNumber r; col := JNumber c |}) w).2
  = store w.
Proof.
  unfold run, POST_squares; cbn [row col].
  destruct ((r <? 0) || (r >? 9) || (c <? 0) || (c >? 9)) eqn:Hrange.
  { intros H. destruct (sent_nothing_racing _ _ H). }
  run_step.
  pose proof (answer_read_only e (SelectLockedOf (user_email u)) (store w) I) as Hg.
  destruct (answer e (SelectLockedOf (user_email u)) (store w)) as [[gd ger gcn] st1].
  cbn in Hg. subst st1. run_step.
  assert (Hrest : ∀ j,
    let res := run_racing alone e
       (existingSquare ← await (SelectSquareSingle r c);
        match data existingSquare with
        | Some sq =>
            if negb (bool_decide (email sq = user_email u))
            then mret (json_error "Square is taken by another user" 403)
            else if locked sq
            then mret (json_error "Cannot modify locked squares" 403)
            else
              del ← await (DeleteSquare r c (user_email u));
              match error del with
              | Some _ => mret (json_error "Failed to release square" 500)
              | None => mret (json (ActionBody "released" r c None))
              end
        | None =>
            ins ← await (InsertSquare r c (user_email u) false);
            match error ins with
            | Some _ => mret (json_error "Failed to claim square" 500)
            | None => mret (json (ActionBody "claimed" r c (Some (user_email u))))
            end
        end)
       {| store := store w; rng := rng w; journal := (journal w ++ [j])%list |} in
    (DeleteSquare r c (user_email u), Some err) ∈ sent w res.2 →
    j.1 = SelectLockedOf (user_email u) →
    res.1 = json_error "Failed to release square" 500 ∧ store res.2 = store w).
  { intros [jq je] res Hin Hj. cbn in Hj. subst jq res. revert Hin. run_step.
    pose proof (answer_read_only e (SelectSquareSingle r c) (store w) I) as Hs.
    destruct (answer e (SelectSquareSingle r c) (store w)) as [[d er cn] st2].
    cbn in Hs. subst st2. run_step.
    destruct d as [sq|].
    - destruct (negb (bool_decide (email sq = user_email u)));
        [intros H; absurd_sent H|].
      destruct (locked sq); [intros H; absurd_sent H|]. run_step.
      destruct (answer e (DeleteSquare r c (user_email u)) (store w))
        as [[d' er' cn'] st3] eqn:Hdel.
      apply answer_delete_inv in Hdel as [[Her ->]|[-> ->]]; run_step.
      + destruct er'; [|done]. run_step. done.
      + intros H; absurd_sent H.
    - run_step.
      destruct (answer e (InsertSquare r c (user_email u) false) (store w))
        as [[d' er' cn'] st3].
      run_step. destruct er'; run_step; intros H; absurd_sent H. }
  destruct gd as [[|? ?]|].
  - intros H. by apply (Hrest (_, ger)).
  - run_step. intros H; absurd_sent H.
  - intros H. by apply (Hrest (_, ger)).
Qed.

Lemma lock_fetch_down (e : Env) (u : User) (w : World) :
  fault e (SelectByEmail (user_email u)) = true →
  (run e (POST_lock (Some u)) w).1 = json_error "Failed to fetch your squares" 500 ∧
  store (run e (POST_lock (Some u)) w).2 = store w.
Proof.
  intros F. unfold run, POST_lock. run_step. rewrite (answer_down _ _ _ F).
  run_step. done.
Qed.

Lemma lock_keeps_config_when_insert_down (e : Env) (u : User) (w : World) :
  fault e (InsertConfig (generated e w)) = true →
  config (store (run e (POST_lock (Some u)) w).2) = config (store w) ∧
  (generation_attempted w (run e (POST_lock (Some u)) w).2 →
   ∃ n, (run e (POST_lock (Some u)) w).1 = json (LockedBody n None)).
Proof.
  intros F.
  destruct (lock_outcomes e (Some u) w)
    as [_ -> Hno _ | u' n shown _ _ _ _ _ _ -> Hno _
       | u' n shown _ _ _ _ _ Hres _ _ _ _ _ [(_ & Hok & _)|(Hsame & -> & _)]];
    try done.
  - congruence.
  - split; [done|]. intros _. by exists n.
Qed.

Lemma admin_lock_down (e : Env) (admin : User) (s : string) (w : World) :
  isAdmin (user_email admin) = true → s ≠ "" →
  fault e (UpdateLockedSelect (toLowerCase s)) = true →
  (run e (POST_lock_user (Some admin) {| target := JString s |}) w).1
  = json_error "Failed to lock squares" 500 ∧
  store (run e (POST_lock_user (Some admin) {| target := JString s |}) w).2 = store w.
Proof.
  intros Hadmin Hs F. unfold run, POST_lock_user. rewrite Hadmin. cbn [negb target].
  rewrite bool_decide_eq_false_2 by done. run_step.
  rewrite (answer_down _ _ _ F). run_step. done.
Qed.

(** [C6] Which store failures reach the caller.  A failure of the listing
    of the cells, of the delete of a release, of the insert of a claim, of
    the read of the caller's cells at lock-in, of the lock update and of the
    administrative lock update is answered 500 and leaves the tables as
    they were: a failed delete is never answered [released], a failed lock
    update never as a lock-in.  A failure of the read of the configuration
    in the listing is answered 200 with no configuration, and a lock-in
    whose cells were locked answers 200 whatever fails afterwards; when the
    insert of the configuration fails, the configuration is left as it
    was. *)
Theorem store_failures_that_are_surfaced (e : Env) (u : User) (w : World) :
  (fault e SelectSquares = true →
     (run e GET_squares w).1 = json_error "Failed to fetch squares" 500 ∧
     store (run e GET_squares w).2 = store w) ∧
  (fault e SelectSquares = false → fault e SelectConfigSingle = true →
     (run e GET_squares w).1
     = json (GridBody (to_square <$> map_to_list (squares (store w))) None)) ∧
  (∀ r c err,
     let res := run e (POST_squares (Some u) {| row := JNumber r; col := JNumber c |}) w in
     ((DeleteSquare r c (user_email u), Some err) ∈ sent w res.2 →
        res.1 = json_error "Failed to release square" 500 ∧ store res.2 = store w) ∧
     ((InsertSquare r c (user_email u) false, Some err) ∈ sent w res.2 →
        res.1 = json_error "Failed to claim square" 500 ∧ store res.2 = store w)) ∧
  (let res := run e (POST_lock (Some u)) w in
   (fault e (SelectByEmail (user_email u)) = true →
      res.1 = json_error "Failed to fetch your squares" 500 ∧ store res.2 = store w) ∧
   (fault e (SelectByEmail (user_email u)) = false →
    has_cells (user_email u) (squares (store w)) →
    ¬ has_locked (user_email u) (squares (store w)) →
      (fault e (UpdateLocked (user_email u)) = true →
         res.1 = json_error "Failed to lock squares" 500 ∧ store res.2 = store w) ∧
      (fault e (UpdateLocked (user_email u)) = false →
         status res.1 = 200 ∧
         squares (store res.2) = lock_where (user_email u) (squares (store w)) ∧
         (fault e (InsertConfig (generated e w)) = true →
            config (store res.2) = config (store w) ∧
            (generation_attempted w res.2 →
             ∃ n, res.1 = json (LockedBody n None)))))) ∧
  (∀ s, isAdmin (user_email u) = true → s ≠ "" →
     fault e (UpdateLockedSelect (toLowerCase s)) = true →
     let res := run e (POST_lock_user (Some u) {| target := JString s |}) w in
     res.1 = json_error "Failed to lock squares" 500 ∧ store res.2 = store w).
Proof.
  repeat apply conj.
  - apply get_squares_down.
  - intros Fs Fc. apply (get_config_down e w Fs Fc).
  - intros r c err res. subst res. split.
    + apply failed_delete_is_500.
    + intros Hin.
      destruct (rejected_insert_is_500 alone e u r c w err Hin) as (Hres & Hst & _).
      by split.
  - apply lock_fetch_down.
  - intros Ff Hcells Hnone. split; intros Fu.
    + by rewrite lock_update_down.
    + destruct (lock_goes_through e u w Ff Hcells Hnone Fu) as [Hok Hst].
      split; [done|]. split; [done|]. apply lock_keeps_config_when_insert_down.
  - intros s Hadmin Hs F res. by apply admin_lock_down.
Qed.

Lemma store_failures_that_are_surfaced_witness :
  (run (failing everything_down) GET_squares fresh).1
  = json_error "Failed to fetch squares" 500.
Proof.
  exact (proj1 (proj1 (store_failures_that_are_surfaced
                         (failing everything_down) alice fresh) eq_refl)).
Defined.

(** The insert of the configuration row fails on the lock-in that fills the
    grid: the caller is answered 200 with no configuration; the read of the
    row fails in the listing: the caller is answered 200 with no
    configuration although a row is stored. *)
Lemma config_failures_are_not_surfaced :
  (run (failing config_insert_down) (POST_lock (Some alice)) full_without_config).1
  = json (LockedBody 100 None) ∧
  sent full_without_config
    (run (failing config_insert_down) (POST_lock (Some alice)) full_without_config).2
    !! 4%nat
  = Some (InsertConfig (generated (failing config_insert_down) full_without_config),
          Some StoreDown) ∧
  (run (failing config_read_down) GET_squares (world_of ∅ (Some sample_config))).1
  = json (GridBody [] None) ∧
  config (store (world_of ∅ (Some sample_config))) = Some sample_config.
Proof. vm_compute. repeat split. Qed.





(** * Further properties of the handlers *)

(** ** The toggle *)

Lemma toggle_claims (e : Env) (u : User) (r c : Z) (w : World) :
  0 <= r <= 9 → 0 <= c <= 9 →
  fault e (SelectSquareSingle r c) = false →
  fault e (InsertSquare r c (user_email u) false) = false →
  ¬ has_locked (user_email u) (squares (store w)) →
  squares (store w) !! (r, c) = None →
  (run e (POST_squares (Some u) {| row := JNumber r; col := JNumber c |}) w).1
  = json (ActionBody "claimed" r c (Some (user_email u))) ∧
  store (run e (POST_squares (Some u) {| row := JNumber r; col := JNumber c |}) w).2
  = {| squares := <[(r, c) := {| email := user_email u; locked := false |}]>
                    (squares (store w));
       config := config (store w) |}.
Proof.
  intros Hr Hc Fsel Fins Hno Hm. toggle_start.
  destruct (guard_unlocked e _ (store w) Hno) as [-> | ->]; run_step;
    rewrite (answer_ok _ _ _ Fsel); cbn [exec Payload]; rewrite Hm; run_step;
    rewrite (answer_ok _ _ _ Fins); cbn [exec Payload];
    rewrite in_grid_range by assumption; cbn [negb]; rewrite Hm;
    run_step; auto.
Qed.

Lemma toggle_releases (e : Env) (u : User) (r c : Z) (w : World) :
  0 <= r <= 9 → 0 <= c <= 9 →
  fault e (SelectSquareSingle r c) = false →
  fault e (DeleteSquare r c (user_email u)) = false →
  ¬ has_locked (user_email u) (squares (store w)) →
  squares (store w) !! (r, c) = Some {| email := user_email u; locked := false |} →
  (run e (POST_squares (Some u) {| row := JNumber r; col := JNumber c |}) w).1
  = json (ActionBody "released" r c None) ∧
  store (run e (POST_squares (Some u) {| row := JNumber r; col := JNumber c |}) w).2
  = {| squares := delete (r, c) (squares (store w)); config := config (store w) |}.
Proof.
  intros Hr Hc Fsel Fdel Hno Hm. toggle_start.
  destruct (guard_unlocked e _ (store w) Hno) as [-> | ->]; run_step;
    rewrite (answer_ok _ _ _ Fsel); cbn [exec Payload]; rewrite Hm; run_step;
    cbn [email locked]; rewrite bool_decide_eq_true_2 by done; cbn [negb];
    run_step; rewrite (answer_ok _ _ _ Fdel); cbn [exec Payload]; run_step;
    (split; [done|]); f_equal; by apply (delete_where_owned _ _ _ _ _ Hm).
Qed.

Lemma has_locked_insert_unlocked (u v : string) (m : Grid) (k : Z * Z) :
  has_locked u (<[k := {| email := v; locked := false |}]> m) → has_locked u m.
Proof.
  intros (k' & cell & Hk & Hu & Hl).
  destruct (decide (k = k')) as [<-|Hne].
  - rewrite lookup_insert_eq in Hk. injection Hk as <-. done.
  - rewrite lookup_insert_ne in Hk by done. by exists k', cell.
Qed.

Lemma has_locked_delete (u : string) (m : Grid) (k : Z * Z) :
  has_locked u (delete k m) → has_locked u m.
Proof.
  intros (k' & cell & Hk & Hu & Hl).
  apply lookup_delete_Some in Hk as [_ Hk]. by exists k', cell.
Qed.

(** [X1] Clicking a free cell twice, or an own cell twice, puts the tables back
    exactly as they were: the first toggle claims (releases), the second
    releases (claims again with [locked = false]). *)
Theorem toggle_twice_restores
    (e1 e2 : Env) (u : User) (r c : Z) (w : World) :
  0 <= r <= 9 → 0 <= c <= 9 →
  toggle_store_ok e1 u r c → toggle_store_ok e2 u r c →
  ¬ has_locked (user_email u) (squares (store w)) →
  let click := POST_squares (Some u) {| row := JNumber r; col := JNumber c |} in
  let first := run e1 click w in
  let second := run e2 click first.2 in
  (squares (store w) !! (r, c) = None →
     first.1 = json (ActionBody "claimed" r c (Some (user_email u))) ∧
     second.1 = json (ActionBody "released" r c None) ∧
     store second.2 = store w) ∧
  (squares (store w) !! (r, c) = Some {| email := user_email u; locked := false |} →
     first.1 = json (ActionBody "released" r c None) ∧
     second.1 = json (ActionBody "claimed" r c (Some (user_email u))) ∧
     store second.2 = store w).
Proof.
  intros Hr Hc (Fs1 & Fd1 & Fi1) (Fs2 & Fd2 & Fi2) Hno click first second.
  subst click first second.
  split; intros Hm.
  - destruct (toggle_claims e1 u r c w) as [Hres Hst]; try done.
    destruct (toggle_releases e2 u r c
                (run e1 (POST_squares (Some u) {| row := JNumber r; col := JNumber c |}) w).2)
      as [Hres2 Hst2]; try done.
    + rewrite Hst. cbn. intros Hl. by apply has_locked_insert_unlocked in Hl.
    + rewrite Hst. cbn. by rewrite lookup_insert_eq.
    + rewrite Hres, Hres2, Hst2, Hst. cbn. split; [done|split; [done|]].
      rewrite delete_insert_eq, delete_id by done. by destruct (store w).
  - destruct (toggle_releases e1 u r c w) as [Hres Hst]; try done.
    destruct (toggle_claims e2 u r c
                (run e1 (POST_squares (Some u) {| row := JNumber r; col := JNumber c |}) w).2)
      as [Hres2 Hst2]; try done.
    + rewrite Hst. cbn. intros Hl. by apply has_locked_delete in Hl.
    + rewrite Hst. cbn. by rewrite lookup_delete_eq.
    + rewrite Hres, Hres2, Hst2, Hst. cbn. split; [done|split; [done|]].
      rewrite insert_delete_eq, insert_id by done. by destruct (store w).
Qed.

Lemma reliable_toggle_store_ok (u : User) (r c : Z) : toggle_store_ok reliable u r c.
Proof. by repeat split. Qed.

Lemma toggle_twice_restores_witness :
  store (run reliable (POST_squares (Some alice) (at_ 3 4))
           (run reliable (POST_squares (Some alice) (at_ 3 4)) two_owners).2).2
  = store two_owners.
Proof.
  refine (proj2 (proj2 (proj2 (toggle_twice_restores reliable reliable alice 3 4
                                 two_owners _ _ (reliable_toggle_store_ok _ _ _)
                                 (reliable_toggle_store_ok _ _ _) _) _)));
    [lia|lia| |reflexivity].
  intros (k & cell & Hk & _ & Hl). revert Hk. cbn.
  destruct (decide (k = (3, 4))) as [->|H1].
  - rewrite lookup_insert_eq. intros [= <-]. discriminate.
  - rewrite lookup_insert_ne by done.
    destruct (decide (k = (5, 5))) as [->|H2].
    + rewrite lookup_insert_eq. intros [= <-]. discriminate.
    + rewrite lookup_insert_ne by done. by rewrite lookup_empty.
Defined.

(** A run only appends to the journal. *)
Lemma run_racing_journal {A} (others : Query -> Store -> Store) (e : Env)
    (p : Prog A) (w : World) :
  ∃ l, journal (run_racing others e p w).2 = (journal w ++ l)%list.
Proof.
  revert w. induction p as [a|q k IH|k IH|em n k IH]; intros w; cbn.
  - exists []. by rewrite app_nil_r.
  - destruct (IH (answer e q (others q (store w))).1
                 {| store := (answer e q (others q (store w))).2; rng := rng w;
                    journal := (journal w ++
                      [(q, error (answer e q (others q (store w))).1)])%list |})
      as [l Hl].
    rewrite Hl. cbn. rewrite <- app_assoc. eauto.
  - apply (IH _ {| store := store w; rng := S (rng w); journal := journal w |}).
  - apply IH.
Qed.

Lemma valid_coordinates_range (b : ToggleBody) :
  valid_coordinate (row b) && valid_coordinate (col b) = true →
  ∃ r c, b = {| row := JNumber r; col := JNumber c |} ∧ 0 <= r <= 9 ∧ 0 <= c <= 9.
Proof.
  destruct b as [[| |?|r|?] [| |?|c|?]]; cbn; try done;
    rewrite ?andb_false_r; try done.
  intros H. exists r, c. split; [done|]. lia.
Qed.

(** [X2] The toggle answers 401 to a request without a session and 400 to one
    whose row or column is not a number from 0 to 9, in that order, and in
    both cases sends nothing to the store; every other request starts with
    the read of the caller's locked cells. *)
Theorem toggle_checks_before_the_store
    (e : Env) (user : option User) (b : ToggleBody) (w : World) :
  let res := run e (POST_squares user b) w in
  (user = None → res = (json_error "Not authenticated" 401, w)) ∧
  (∀ u, user = Some u →
     valid_coordinate (row b) && valid_coordinate (col b) = false →
     res = (json_error "Invalid row or column" 400, w)) ∧
  (∀ u, user = Some u →
     valid_coordinate (row b) && valid_coordinate (col b) = true →
     ∃ er, sent w res.2 !! 0%nat = Some (SelectLockedOf (user_email u), er)).
Proof.
  intros res. subst res. split; [by intros ->|]. split.
  - intros u -> Hbad. destruct b as [[| |?|r|?] [| |?|c|?]]; try done.
    unfold run, POST_squares. cbn [row col]. cbn in Hbad.
    destruct ((r <? 0) || (r >? 9) || (c <? 0) || (c >? 9)) eqn:Hrange; [done|].
    apply range_guard_inv in Hrange. lia.
  - intros u -> Hok.
    destruct (valid_coordinates_range b Hok) as (r & c & -> & Hr & Hc).
    toggle_start.
    match goal with |- context [run_racing alone e ?p ?w'] =>
      destruct (run_racing_journal alone e p w') as [l Hl] end.
    unfold sent. rewrite Hl. cbn [journal]. rewrite <- app_assoc.
    rewrite drop_app_length. cbn. eauto.
Qed.

Lemma toggle_checks_before_the_store_witness :
  run reliable (POST_squares (Some alice) (at_ 10 0)) two_owners
  = (json_error "Invalid row or column" 400, two_owners).
Proof.
  exact (proj1 (proj2 (toggle_checks_before_the_store reliable (Some alice)
                         (at_ 10 0) two_owners))
           alice eq_refl eq_refl).
Defined.

(** [X3] When the read of the already-locked guard fails, its error is dropped
    and the toggle goes on as for a participant with no locked cell: on a
    free cell it claims, also for a participant who is locked in, who is
    then left with locked and unlocked cells. *)
Theorem failed_guard_read_is_ignored (e : Env) (u : User) (r c : Z) (w : World) :
  0 <= r <= 9 → 0 <= c <= 9 →
  fault e (SelectLockedOf (user_email u)) = true →
  fault e (SelectSquareSingle r c) = false →
  fault e (InsertSquare r c (user_email u) false) = false →
  squares (store w) !! (r, c) = None →
  let res := run e (POST_squares (Some u) {| row := JNumber r; col := JNumber c |}) w in
  res.1 = json (ActionBody "claimed" r c (Some (user_email u))) ∧
  squares (store res.2)
    = <[(r, c) := {| email := user_email u; locked := false |}]> (squares (store w)) ∧
  (has_locked (user_email u) (squares (store w)) → ¬ uniform (squares (store res.2))).
Proof.
  intros Hr Hc Fg Fsel Fins Hm res. subst res.
  assert (Hrun :
    run e (POST_squares (Some u) {| row := JNumber r; col := JNumber c |}) w
    = (json (ActionBody "claimed" r c (Some (user_email u))),
       {| store := {| squares := <[(r, c) := {| email := user_email u; locked := false |}]>
                                   (squares (store w));
                      config := config (store w) |};
          rng := rng w;
          journal := (journal w ++
            [(SelectLockedOf (user_email u), Some StoreDown);
             (SelectSquareSingle r c, Some NoRows);
             (InsertSquare r c (user_email u) false, None)])%list |})).
  { toggle_start. rewrite (answer_down _ _ _ Fg). run_step.
    rewrite (answer_ok _ _ _ Fsel). cbn [exec Payload]. rewrite Hm. run_step.
    rewrite (answer_ok _ _ _ Fins). cbn [exec Payload].
    rewrite in_grid_range by assumption. cbn [negb]. rewrite Hm. run_step.
    by rewrite <- !app_assoc. }
  rewrite Hrun. cbn [fst snd store squares]. split; [done|]. split; [done|].
  intros (k & cell & Hk & Hu & Hl) Huni.
  assert (Hne : k ≠ (r, c)) by (intros ->; congruence).
  specialize (Huni k cell (r, c) {| email := user_email u; locked := false |}).
  rewrite lookup_insert_ne, lookup_insert_eq in Huni by done.
  specialize (Huni Hk eq_refl Hu). cbn in Huni. congruence.
Qed.

Lemma failed_guard_read_is_ignored_witness :
  (run (failing guard_read_down)
     (POST_squares (Some alice) (at_ 0 0))
     (run reliable (POST_lock (Some alice)) two_owners).2).1
  = json (ActionBody "claimed" 0 0 (Some (user_email alice))).
Proof.
  refine (proj1 (failed_guard_read_is_ignored _ alice 0 0 _ _ _ _ _ _ _));
    first [lia | reflexivity].
Defined.

(** ** Invariants along sequences of requests *)

Lemma lock_where_lookup_inv (u : string) (m : Grid) (k : Z * Z) (cell : Cell) :
  lock_where u m !! k = Some cell →
  ∃ c0, m !! k = Some c0 ∧ email cell = email c0 ∧
        (email c0 = u → locked cell = true) ∧ (email c0 ≠ u → cell = c0).
Proof.
  rewrite lookup_lock_where. destruct (m !! k) as [c0|]; [|done].
  cbn. intros [= <-]. exists c0. split; [done|].
  destruct (decide (owned_by u c0)) as [Ho|Ho]; cbn; by repeat split.
Qed.

Lemma uniform_step (w : World) (erq : Env * Request) :
  uniform (squares (store w)) →
  match erq.2 with
  | Toggle (Some u) _ => fault erq.1 (SelectLockedOf (user_email u)) = false
  | _ => True
  end →
  uniform (squares (store (serve w erq))).
Proof.
  intros Huni Hguard.
  destruct erq as [e [|user b|user]]; unfold serve; cbn [fst snd handle] in *.
  - by rewrite get_reads_only.
  - destruct (toggle_outcomes e user b w)
      as [_ -> | u r c -> -> Hr Hc Hm Hres -> | u r c -> -> Hr Hc Hm Hres ->];
      [done| |].
    + assert (Hno : ¬ has_locked (user_email u) (squares (store w))).
      { intros Hl.
        destruct (toggle_when_locked e u {| row := JNumber r; col := JNumber c |}
                    w Hguard Hl) as [Hf _].
        rewrite Hres in Hf. by apply (failed_not_ok _ Hf). }
      assert (Hfree : ∀ k cell, squares (store w) !! k = Some cell →
                email cell = user_email u → locked cell = false).
      { intros k cell Hk Hu. destruct (locked cell) eqn:Hl; [|done].
        destruct Hno. by exists k, cell. }
      cbn. intros k1 c1 k2 c2.
      destruct (decide (k1 = (r, c))) as [->|H1];
        destruct (decide (k2 = (r, c))) as [->|H2];
        rewrite ?lookup_insert_eq, ?lookup_insert_ne by done.
      * by intros [= <-] [= <-].
      * intros [= <-] H2' He. cbn in *. symmetry. by eapply Hfree.
      * intros H1' [= <-] He. cbn in *. by eapply Hfree.
      * apply Huni.
    + cbn. intros k1 c1 k2 c2 H1 H2.
      apply lookup_delete_Some in H1 as [_ H1].
      apply lookup_delete_Some in H2 as [_ H2]. by eapply Huni.
  - destruct (lock_outcomes e user w)
      as [_ -> _ _ | u n shown _ _ _ _ _ _ -> _ _
         | u n shown _ _ _ _ _ _ Hst _ _ _ _ _]; [done| |].
    + cbn. intros k1 c1 k2 c2 H1 H2 He.
      apply lock_where_lookup_inv in H1 as (a1 & Ha1 & He1 & Ho1 & Hn1).
      apply lock_where_lookup_inv in H2 as (a2 & Ha2 & He2 & Ho2 & Hn2).
      destruct (decide (email a1 = user_email u)) as [Hu|Hu].
      * rewrite Ho1, Ho2 by congruence. done.
      * rewrite Hn1, Hn2 by congruence. eapply Huni; eauto. congruence.
    + rewrite Hst. intros k1 c1 k2 c2 H1 H2 He.
      apply lock_where_lookup_inv in H1 as (a1 & Ha1 & He1 & Ho1 & Hn1).
      apply lock_where_lookup_inv in H2 as (a2 & Ha2 & He2 & Ho2 & Hn2).
      destruct (decide (email a1 = user_email u)) as [Hu|Hu].
      * rewrite Ho1, Ho2 by congruence. done.
      * rewrite Hn1, Hn2 by congruence. eapply Huni; eauto. congruence.
Qed.

(** [X4] Through any sequence of listings, toggles and lock-ins in which the
    store answers the already-locked guard of each toggle, every participant
    keeps all of their cells locked or none of them. *)
Theorem all_or_none_locked_is_kept (w : World) (l : list (Env * Request)) :
  uniform (squares (store w)) → guards_answered l →
  uniform (squares (store (serve_all w l))).
Proof.
  revert w. induction l as [|erq l IH]; intros w Huni Hg; [done|].
  apply Forall_cons in Hg as [Hg1 Hg]. cbn. apply IH; [|done].
  by apply uniform_step.
Qed.

Lemma all_or_none_locked_is_kept_witness :
  uniform (squares (store (serve_all fresh
    [(reliable, Toggle (Some alice) (at_ 3 4));
     (reliable, Toggle (Some bob) (at_ 5 5));
     (reliable, Toggle (Some alice) (at_ 3 5));
     (reliable, LockIn (Some alice));
     (reliable, Toggle (Some alice) (at_ 0 0))]))).
Proof.
  apply (all_or_none_locked_is_kept fresh).
  - intros k1 c1 k2 c2 H1. unfold fresh, world_of in H1. cbn [store squares] in H1.
    by rewrite lookup_empty in H1.
  - repeat (apply Forall_cons; split; [exact eq_refl || exact I|]). apply Forall_nil_2.
Defined.

Lemma in_grid_coordinates (k : Z * Z) :
  in_grid k.1 k.2 = true → k ∈ grid_coordinates.
Proof.
  destruct k as [r c]. unfold in_grid, grid_coordinates, all_coordinates. cbn [fst snd].
  rewrite !andb_true_iff. intros [[[H1 H2] H3] H4].
  apply elem_of_list_to_set, list_elem_of_bind. exists r. split.
  - apply list_elem_of_bind. exists c. split; [apply list_elem_of_singleton; done|].
    unfold zero_to_nine.
    assert (c = 0 ∨ c = 1 ∨ c = 2 ∨ c = 3 ∨ c = 4 ∨ c = 5 ∨ c = 6 ∨ c = 7 ∨
            c = 8 ∨ c = 9) as Hc by lia.
    rewrite !elem_of_cons. tauto.
  - unfold zero_to_nine.
    assert (r = 0 ∨ r = 1 ∨ r = 2 ∨ r = 3 ∨ r = 4 ∨ r = 5 ∨ r = 6 ∨ r = 7 ∨
            r = 8 ∨ r = 9) as Hc by lia.
    rewrite !elem_of_cons. tauto.
Qed.

Lemma grid_has_100_coordinates : size grid_coordinates = 100%nat.
Proof. by vm_compute. Qed.

Lemma all_in_grid_size (m : Grid) : all_in_grid m → (size m <= 100)%nat.
Proof.
  intros Hall. rewrite <- size_dom, <- grid_has_100_coordinates.
  apply subseteq_size. intros k Hk. apply elem_of_dom in Hk as [cell Hk].
  apply in_grid_coordinates. by eapply Hall.
Qed.

Lemma all_in_grid_step (w : World) (erq : Env * Request) :
  all_in_grid (squares (store w)) → all_in_grid (squares (store (serve w erq))).
Proof.
  intros Hall.
  destruct erq as [e [|user b|user]]; unfold serve; cbn [fst snd handle].
  - by rewrite get_reads_only.
  - destruct (toggle_outcomes e user b w)
      as [_ -> | u r c _ _ Hr Hc _ _ -> | u r c _ _ _ _ _ _ ->]; [done| |]; cbn.
    + intros k cell. destruct (decide (k = (r, c))) as [->|Hne].
      * intros _. by apply in_grid_range.
      * rewrite lookup_insert_ne by done. apply Hall.
    + intros k cell Hk. apply lookup_delete_Some in Hk as [_ Hk]. by eapply Hall.
  - destruct (lock_outcomes e user w)
      as [_ -> _ _ | u n shown _ _ _ _ _ _ -> _ _
         | u n shown _ _ _ _ _ _ Hst _ _ _ _ _]; [done| |]; rewrite ?Hst; cbn;
      intros k cell Hk; apply lock_where_lookup_inv in Hk as (c0 & Hk & _);
      by eapply Hall.
Qed.

(** [X5] Through any sequence of listings, toggles and lock-ins, whatever the
    store fails, every row stays on the 10 x 10 grid: there are never more
    than 100 cells, nor more than 100 locked cells. *)
Theorem grid_never_outgrows_the_board (w : World) (l : list (Env * Request)) :
  all_in_grid (squares (store w)) →
  all_in_grid (squares (store (serve_all w l))) ∧
  (size (squares (store (serve_all w l))) <= 100)%nat ∧
  (size (locked_cells (squares (store (serve_all w l)))) <= 100)%nat.
Proof.
  intros Hall.
  assert (Hkeep : all_in_grid (squares (store (serve_all w l)))).
  { revert w Hall. induction l as [|erq l IH]; intros w Hall; [done|].
    cbn. apply IH. by apply all_in_grid_step. }
  split; [done|]. pose proof (all_in_grid_size _ Hkeep) as Hsize.
  split; [done|].
  etrans; [|exact Hsize]. apply map_subseteq_size, map_filter_subseteq.
Qed.

Lemma grid_never_outgrows_the_board_witness :
  (size (squares (store (serve_all full_without_config
     [(reliable, Toggle (Some bob) (at_ 9 9));
      (failing everything_down, Toggle (Some bob) (at_ 10 0));
      (reliable, LockIn (Some alice))]))) <= 100)%nat.
Proof.
  refine (proj1 (proj2 (grid_never_outgrows_the_board full_without_config _ _))).
  intros k cell Hk. apply elem_of_list_to_map_2 in Hk.
  apply list_elem_of_fmap in Hk as (k' & [= -> ->] & Hin).
  unfold all_coordinates in Hin.
  apply list_elem_of_bind in Hin as (r & Hin & Hr).
  apply list_elem_of_bind in Hin as (c & Hin & Hc).
  apply list_elem_of_singleton in Hin as ->. cbn.
  unfold zero_to_nine in *. rewrite !elem_of_cons, elem_of_nil in Hr, Hc.
  unfold in_grid. rewrite !andb_true_iff. lia.
Defined.

(** ** The settled grid *)

Lemma settled_toggle (e : Env) (user : option User) (b : ToggleBody) (w : World) :
  settled (squares (store w)) →
  failed (run e (POST_squares user b) w).1 ∧
  store (run e (POST_squares user b) w).2 = store w.
Proof.
  intros [Hfull Hlocked].
  destruct (toggle_outcomes e user b w)
    as [Hf Hst | u r c _ _ Hr Hc Hm _ _ | u r c _ _ Hr Hc Hm _ _]; [done| |].
  - destruct (Hfull r c Hr Hc) as [cell Hcell]. congruence.
  - specialize (Hlocked _ _ Hm). done.
Qed.

Lemma settled_lock (e : Env) (user : option User) (w : World) :
  settled (squares (store w)) →
  failed (run e (POST_lock user) w).1 ∧
  store (run e (POST_lock user) w).2 = store w ∧
  ¬ generation_attempted w (run e (POST_lock user) w).2.
Proof.
  intros [Hfull Hlocked].
  destruct (lock_outcomes e user w)
    as [Hf Hst Hno _ | u n shown _ _ _ (k & cell & Hk & Hu) Hnl _ _ _ _
       | u n shown _ _ _ (k & cell & Hk & Hu) Hnl _ _ _ _ _ _ _]; [done| |];
    destruct Hnl; exists k, cell; eauto.
Qed.

(** [X6] Once the 100 cells are taken and locked, every toggle and every lock-in
    of anybody is refused, whatever the store fails, and no sequence of
    listings, toggles and lock-ins changes the cells or the configuration:
    in particular a configuration row that was cleared is not generated
    again. *)
Theorem settled_grid_is_frozen (w : World) :
  settled (squares (store w)) →
  (∀ e user b,
     failed (run e (POST_squares user b) w).1 ∧
     store (run e (POST_squares user b) w).2 = store w) ∧
  (∀ e user,
     failed (run e (POST_lock user) w).1 ∧
     store (run e (POST_lock user) w).2 = store w ∧
     ¬ generation_attempted w (run e (POST_lock user) w).2) ∧
  (∀ l, store (serve_all w l) = store w).
Proof.
  intros Hs. split; [|split].
  - intros e user b. by apply settled_toggle.
  - intros e user. by apply settled_lock.
  - intros l. revert w Hs. induction l as [|[e rq] l IH]; intros w Hs; [done|].
    change (serve_all w ((e, rq) :: l)) with (serve_all (serve w (e, rq)) l).
    assert (Hst : store (serve w (e, rq)) = store w).
    { unfold serve. destruct rq as [|user b|user]; cbn [fst snd handle].
      - apply get_reads_only.
      - by apply settled_toggle.
      - by apply settled_lock. }
    rewrite IH; [done|]. by rewrite Hst.
Qed.

Lemma full_grid_lookup (u : User) (l : bool) (r c : Z) :
  0 <= r <= 9 → 0 <= c <= 9 → full_grid u l !! (r, c) = Some (cell_of u l).
Proof.
  intros Hr Hc.
  assert (Hr' : r = 0 ∨ r = 1 ∨ r = 2 ∨ r = 3 ∨ r = 4 ∨ r = 5 ∨ r = 6 ∨ r = 7 ∨
                r = 8 ∨ r = 9) by lia.
  assert (Hc' : c = 0 ∨ c = 1 ∨ c = 2 ∨ c = 3 ∨ c = 4 ∨ c = 5 ∨ c = 6 ∨ c = 7 ∨
                c = 8 ∨ c = 9) by lia.
  decompose [or] Hr'; decompose [or] Hc'; subst; by vm_compute.
Qed.

Lemma full_grid_cells (u : User) (l : bool) (k : Z * Z) (cell : Cell) :
  full_grid u l !! k = Some cell → cell = cell_of u l.
Proof.
  intros Hk. apply elem_of_list_to_map_2 in Hk.
  by apply list_elem_of_fmap in Hk as (k' & [= -> ->] & _).
Qed.

Lemma full_locked_grid_settled (u : User) : settled (full_grid u true).
Proof.
  split.
  - intros r c Hr Hc. rewrite full_grid_lookup by done. eauto.
  - intros k cell Hk. by rewrite (full_grid_cells _ _ _ _ Hk).
Qed.

Lemma settled_grid_is_frozen_witness :
  store (serve_all (world_of (full_grid alice true) None)
           [(reliable, Toggle (Some bob) (at_ 2 2));
            (failing everything_down, Toggle (Some alice) (at_ 2 2));
            (reliable, LockIn (Some alice))])
  = store (world_of (full_grid alice true) None).
Proof.
  apply (proj2 (proj2 (settled_grid_is_frozen (world_of (full_grid alice true) None)
                         (full_locked_grid_settled alice)))).
Defined.

(** ** What the lock-in reports *)

Lemma lock_response (e : Env) (u : User) (w : World) :
  failed (run e (POST_lock (Some u)) w).1 ∨
  ∃ shown, (run e (POST_lock (Some u)) w).1
           = json (LockedBody (size (cells_of (user_email u) (squares (store w)))) shown).
Proof.
  unfold run, POST_lock. run_step.
  destruct (answer e (SelectByEmail (user_email u)) (store w))
    as [[d er cn] st1] eqn:Hfetch.
  apply answer_fetch_inv in Hfetch as [-> [[Her Hf]|(-> & Ffetch & ->)]]; run_step.
  { destruct er; [|done]. left. apply failed_error. lia. }
  rewrite <- (length_map_to_list (cells_of (user_email u) (squares (store w)))).
  rewrite <- (length_fmap (fun kc : Z * Z * Cell => locked kc.2)).
  destruct (_ <$> map_to_list (cells_of (user_email u) (squares (store w))))
    as [|b l] eqn:Hflags.
  { left. apply failed_error. lia. }
  rewrite <- Hflags.
  destruct (existsb _ _); [left; apply failed_error; lia|].
  run_step.
  destruct (answer e (UpdateLocked (user_email u)) (store w)) as [[d1 [er1|] cn1] st1];
    run_step; [left; apply failed_error; lia|].
  destruct (answer e CountLocked st1) as [[d2 er2 cn2] st2]. run_step.
  destruct (bool_decide (cn2 = Some 100%nat)); run_step; [|right; eauto].
  destruct (answer e SelectConfigSingle st2) as [[[c|] er3 cn3] st3]; run_step;
    [right; eauto|].
  rewrite run_racing_bind, run_generateRandomSequence. cbn [fst snd].
  rewrite run_racing_bind, run_generateRandomSequence. cbn [fst snd].
  run_step.
  match goal with |- context [answer e (InsertConfig ?c) ?s] =>
    destruct (answer e (InsertConfig c) s) as [[d4 [er4|] cn4] st4] end;
    run_step; right; eauto.
Qed.

Lemma locked_after_lock (u : string) (m : Grid) :
  ¬ has_locked u m →
  size (locked_cells (lock_where u m))
  = (size (locked_cells m) + size (cells_of u m))%nat.
Proof.
  intros Hno. rewrite <- !size_dom.
  assert (Hdom : dom (locked_cells (lock_where u m))
                 = dom (locked_cells m) ∪ dom (cells_of u m)).
  { apply set_eq. intros k. rewrite elem_of_union, !elem_of_dom. split.
    - intros [c' Hc']. apply map_lookup_filter_Some in Hc' as [Hc' Hl].
      apply lock_where_lookup_inv in Hc' as (c0 & Hk & He & Ho & Hn).
      destruct (decide (email c0 = u)) as [Hu|Hu].
      + right. exists c0. by apply map_lookup_filter_Some.
      + left. exists c0. apply map_lookup_filter_Some. split; [done|].
        rewrite <- (Hn Hu). exact Hl.
    - intros [[c Hc]|[c Hc]]; apply map_lookup_filter_Some in Hc as [Hk Hp].
      + exists c. apply map_lookup_filter_Some. split; [|done].
        by apply lock_where_locked.
      + eexists. apply map_lookup_filter_Some. split.
        * by apply lock_where_owned.
        * done. }
  rewrite Hdom. apply size_union.
  intros k H1 H2. apply elem_of_dom in H1 as [c1 H1]. apply elem_of_dom in H2 as [c2 H2].
  apply map_lookup_filter_Some in H1 as [H1 Hl].
  apply map_lookup_filter_Some in H2 as [H2 Hu].
  apply Hno. exists k, c1. repeat split; [done| |done]. cbn in Hu. congruence.
Qed.

(** [X7] A lock-in that succeeds reports the number of cells the caller owns,
    which is at least one, and the number of locked cells of the grid grows
    by exactly that number. *)
Theorem lock_in_reports_its_cells (e : Env) (u : User) (w : World) :
  let res := run e (POST_lock (Some u)) w in
  let n := size (cells_of (user_email u) (squares (store w))) in
  status res.1 = 200 →
  (∃ shown, res.1 = json (LockedBody n shown)) ∧
  (0 < n)%nat ∧
  size (locked_cells (squares (store res.2)))
  = (size (locked_cells (squares (store w))) + n)%nat.
Proof.
  intros res n Hok. subst res n.
  destruct (lock_effect_squares _ _ _ _ (lock_outcomes e (Some u) w) Hok)
    as (u' & [= <-] & (k & cell & Hk & Hu) & Hno & Hst).
  split; [|split].
  - destruct (lock_response e u w) as [Hf|H]; [|done].
    destruct (failed_not_ok _ Hf Hok).
  - assert (Hin : cells_of (user_email u) (squares (store w)) !! k = Some cell).
    { by apply map_lookup_filter_Some. }
    destruct (size _) eqn:Hsz; [|lia].
    apply map_size_empty_inv in Hsz. rewrite Hsz in Hin.
    by rewrite lookup_empty in Hin.
  - rewrite Hst. by apply locked_after_lock.
Qed.

Lemma lock_in_reports_its_cells_witness :
  size (locked_cells (squares (store (run reliable (POST_lock (Some alice))
                                        two_owners).2)))
  = (size (locked_cells (squares (store two_owners)))
     + size (cells_of (user_email alice) (squares (store two_owners))))%nat.
Proof.
  refine (proj2 (proj2 (lock_in_reports_its_cells reliable alice two_owners _))).
  reflexivity.
Defined.

(** ** The listing *)

#[local] Instance to_square_inj : Inj (=) (=) to_square.
Proof. intros [[r c] [em l]] [[r' c'] [em' l']]. cbn. by intros [= -> -> -> ->]. Qed.

(** [X8] When the store returns the cells, the listing answers 200 with exactly
    the rows of the table, each once, and changes nothing; it shows the
    stored configuration when the store returns it and no configuration
    otherwise. *)
Theorem listing_shows_the_table (e : Env) (w : World) :
  fault e SelectSquares = false →
  ∃ sqs shown,
    run e GET_squares w
    = (json (GridBody sqs shown),
       {| store := store w; rng := rng w;
          journal := (journal w ++
            [(SelectSquares, None);
             (SelectConfigSingle,
              if fault e SelectConfigSingle then Some StoreDown
              else match config (store w) with
                   | Some _ => None
                   | None => Some NoRows
                   end)])%list |}) ∧
    (∀ r c em l,
       {| row_num := r; col_num := c; sq_email := em; sq_locked := l |} ∈ sqs
       ↔ squares (store w) !! (r, c) = Some {| email := em; locked := l |}) ∧
    NoDup sqs ∧ length sqs = size (squares (store w)) ∧
    shown = (if fault e SelectConfigSingle then None else config (store w)).
Proof.
  intros Fs.
  exists (to_square <$> map_to_list (squares (store w))),
         (if fault e SelectConfigSingle then None else config (store w)).
  split; [|split; [|split; [|split]]].
  - unfold run, GET_squares. run_step. rewrite (answer_ok _ _ _ Fs).
    cbn [exec Payload]. run_step. unfold answer.
    destruct (fault e SelectConfigSingle); run_step.
    + by rewrite <- app_assoc.
    + cbn [exec Payload]. destruct (config (store w)); run_step;
        by rewrite <- app_assoc.
  - intros r c em l. rewrite list_elem_of_fmap. split.
    + intros ([[r' c'] [em' l']] & [= -> -> -> ->] & Hin).
      by apply elem_of_map_to_list in Hin.
    + intros Hk. exists ((r, c), {| email := em; locked := l |}). split; [done|].
      by apply elem_of_map_to_list.
  - apply (NoDup_fmap_2 _). apply NoDup_map_to_list.
  - by rewrite length_fmap, length_map_to_list.
  - done.
Qed.

Lemma listing_shows_the_table_witness :
  ∃ sqs shown,
    (run reliable GET_squares two_owners).1 = json (GridBody sqs shown) ∧
    length sqs = 2%nat.
Proof.
  destruct (listing_shows_the_table reliable two_owners eq_refl)
    as (sqs & shown & Hrun & _ & _ & Hlen & _).
  exists sqs, shown. split; [by rewrite Hrun|]. rewrite Hlen. reflexivity.
Defined.

(** ** The administrative lock, release and clearing *)

(** [X9] The administrative lock answers 401 without a session, 403 to a caller
    who is not the administrator and 400 to a body whose email is missing,
    empty or not a string, in that order; in all three cases nothing is sent
    to the store and the tables are as they were. *)
Theorem admin_lock_checks_before_the_store
    (e : Env) (user : option User) (b : AdminBody) (w : World) :
  let res := run e (POST_lock_user user b) w in
  (user = None → res = (json_error "Not authenticated" 401, w)) ∧
  (∀ u, user = Some u → isAdmin (user_email u) = false →
     res = (json_error "Not authorized" 403, w)) ∧
  (∀ u, user = Some u → isAdmin (user_email u) = true →
     match target b with JString s => s = "" | _ => True end →
     res = (json_error "Email is required" 400, w)).
Proof.
  intros res. subst res. split; [by intros ->|]. split.
  - intros u -> Hno. unfold run, POST_lock_user. by rewrite Hno.
  - intros u -> Hadmin Hbad. unfold run, POST_lock_user. rewrite Hadmin. cbn [negb].
    destruct (target b) as [| |?|?|s]; try done. subst s. done.
Qed.

Lemma admin_lock_checks_before_the_store_witness :
  run reliable (POST_lock_user (Some alice) {| target := JString "bob@example.com" |})
    two_owners
  = (json_error "Not authorized" 403, two_owners).
Proof.
  exact (proj1 (proj2 (admin_lock_checks_before_the_store reliable (Some alice)
                         {| target := JString "bob@example.com" |} two_owners))
           alice eq_refl eq_refl).
Defined.



Lemma settled_serve_all (l : list (Env * Request)) (w : World) :
  settled (squares (store w)) → store (serve_all w l) = store w.
Proof.
  revert w. induction l as [|[e rq] l IH]; intros w Hs; [done|].
  change (serve_all w ((e, rq) :: l)) with (serve_all (serve w (e, rq)) l).
  assert (Hst : store (serve w (e, rq)) = store w).
  { unfold serve. destruct rq as [|user b|user]; cbn [fst snd handle].
    - apply get_reads_only.
    - by apply settled_toggle.
    - by apply settled_lock. }
  rewrite IH; [done|]. by rewrite Hst.
Qed.

(** [X11] Clearing the numbers: only the administrator can do it (401 without a
    session, 403 otherwise, the tables untouched); when the store fails the
    delete the answer is 500 and the row stays; otherwise the configuration
    row is removed and no cell is touched.  On a settled grid the cleared
    row never comes back: no sequence of listings, toggles and lock-ins
    stores a configuration again. *)
Theorem cleared_numbers_stay_cleared
    (down : bool) (user : option User) (w : World) :
  let res := POST_clear_numbers down user (store w) in
  (admin_status res.1 = 200 ↔
   (∃ u, user = Some u ∧ isAdmin (user_email u) = true) ∧ down = false) ∧
  (admin_status res.1 ≠ 200 → res.2 = store w) ∧
  (admin_status res.1 = 200 →
     config res.2 = None ∧ squares res.2 = squares (store w) ∧
     (settled (squares (store w)) →
      ∀ l, store (serve_all (with_store w res.2) l) = res.2)).
Proof.
  intros res. subst res. unfold POST_clear_numbers.
  destruct user as [u|]; cbn.
  2:{ split; [|done]. split; [done|]. by intros [(u & [=] & _) _]. }
  destruct (isAdmin (user_email u)) eqn:Hadmin; cbn.
  2:{ split; [|done]. split; [done|]. intros [(u' & [= <-] & H) _]. congruence. }
  destruct down; cbn.
  { split; [|done]. split; [done|]. by intros [_ [=]]. }
  split; [|split; [done|]].
  - split; [|done]. intros _. split; [by exists u|done].
  - intros _. split; [done|]. split; [done|]. intros Hs l.
    by rewrite settled_serve_all.
Qed.

Lemma cleared_numbers_stay_cleared_witness :
  config (store (serve_all
     (with_store (world_of (full_grid alice true) (Some sample_config))
        (POST_clear_numbers false (Some admin)
           (store (world_of (full_grid alice true) (Some sample_config)))).2)
     [(reliable, LockIn (Some alice)); (reliable, Toggle (Some bob) (at_ 1 1))]))
  = None.
Proof.
  rewrite (proj2 (proj2 (proj2 (proj2 (cleared_numbers_stay_cleared false (Some admin)
             (world_of (full_grid alice true) (Some sample_config)))) eq_refl))
             (full_locked_grid_settled alice)).
  reflexivity.
Defined.




(** ** The shuffle reaches every permutation once *)















(** ** The participant listing *)

Lemma userMap_get_None (m : UserMap) (e : string) :
  userMap_get m e = None ↔ e ∉ m.*1.
Proof.
  induction m as [|[k v] m IH]; cbn.
  - split; [intros _; apply not_elem_of_nil|done].
  - rewrite not_elem_of_cons. destruct (decide (k = e)) as [->|Hne].
    + split; [done|]. by intros [? _].
    + rewrite IH. split; [intros ?; split; [congruence|done]|by intros [_ ?]].
Qed.

Lemma userMap_get_NoDup (m : UserMap) (e : string) (v : nat * bool) :
  NoDup m.*1 → (e, v) ∈ m → userMap_get m e = Some v.
Proof.
  induction m as [|[k v'] m IH]; cbn; intros Hnd Hin.
  - by apply elem_of_nil in Hin.
  - apply NoDup_cons in Hnd as [Hk Hnd]. apply elem_of_cons in Hin as [Heq|Hin].
    + inversion Heq; subst. by rewrite decide_True.
    + destruct (decide (k = e)) as [->|Hne]; [|by apply IH].
      exfalso. apply Hk. apply list_elem_of_fmap. by exists (e, v).
Qed.

Lemma userMap_get_app (m m' : UserMap) (e : string) :
  userMap_get (m ++ m') e
  = match userMap_get m e with Some v => Some v | None => userMap_get m' e end.
Proof.
  induction m as [|[k v] m IH]; cbn; [done|]. by destruct (decide (k = e)).
Qed.

Lemma userMap_bump_keys (m : UserMap) (e : string) (l : bool) :
  (userMap_bump m e l).*1 = m.*1.
Proof.
  induction m as [|[k [n lk]] m IH]; cbn; [done|].
  destruct (decide (k = e)); cbn; [done|]. by rewrite IH.
Qed.

Lemma userMap_bump_get (m : UserMap) (e : string) (l : bool) (e' : string) :
  userMap_get (userMap_bump m e l) e'
  = if decide (e = e')
    then (fun v : nat * bool => (S v.1, if l then true else v.2)) <$> userMap_get m e'
    else userMap_get m e'.
Proof.
  induction m as [|[k [n lk]] m IH]; cbn.
  - by destruct (decide (e = e')).
  - destruct (decide (k = e)) as [->|Hne]; cbn.
    + by destruct (decide (e = e')).
    + destruct (decide (k = e')) as [->|Hne'].
      * by rewrite decide_False by congruence.
      * apply IH.
Qed.

Lemma rows_of_snoc (e : string) (rows : list Cell) (c : Cell) :
  rows_of e (rows ++ [c])
  = (rows_of e rows + if decide (email c = e) then 1 else 0)%nat.
Proof. unfold rows_of. rewrite sum_list_with_app. cbn. lia. Qed.

Lemma some_locked_snoc (e : string) (rows : list Cell) (c : Cell) :
  some_locked e (rows ++ [c])
  = some_locked e rows || (bool_decide (email c = e) && locked c).
Proof. unfold some_locked. rewrite existsb_app. cbn. by rewrite orb_false_r. Qed.

Lemma rows_of_pos (e : string) (rows : list Cell) :
  rows_of e rows ≠ 0%nat ↔ ∃ c, c ∈ rows ∧ email c = e.
Proof.
  unfold rows_of. induction rows as [|c rows IH]; cbn.
  - split; [done|]. intros (c & Hc & _). by apply elem_of_nil in Hc.
  - destruct (decide (email c = e)) as [He|He].
    + split; [|lia]. intros _. exists c. split; [left|done].
    + cbn. rewrite IH. split.
      * intros (c' & Hc' & He'). exists c'. split; [by right|done].
      * intros (c' & Hc' & He'). apply elem_of_cons in Hc' as [->|Hc']; [done|].
        by exists c'.
Qed.

Lemma some_locked_true (e : string) (rows : list Cell) :
  some_locked e rows = true ↔ ∃ c, c ∈ rows ∧ email c = e ∧ locked c = true.
Proof.
  unfold some_locked. rewrite existsb_exists. split.
  - intros (c & Hc & Hb). apply andb_true_iff in Hb as [He Hl].
    apply bool_decide_eq_true in He. exists c. by rewrite list_elem_of_In.
  - intros (c & Hc & He & Hl). exists c. rewrite <- list_elem_of_In. split; [done|].
    by rewrite Hl, bool_decide_eq_true_2.
Qed.

(** The map after the rows [seen] holds, for each e-mail among them, their
    number and whether one is locked. *)
Lemma group_row_tallied (m : UserMap) (seen : list Cell) (c : Cell) :
  (NoDup m.*1 ∧
   ∀ e, userMap_get m e
        = if decide (rows_of e seen = 0%nat) then None
          else Some (rows_of e seen, some_locked e seen)) →
  NoDup (group_row m c).*1 ∧
  ∀ e, userMap_get (group_row m c) e
       = if decide (rows_of e (seen ++ [c]) = 0%nat) then None
         else Some (rows_of e (seen ++ [c]), some_locked e (seen ++ [c])).
Proof.
  intros [Hnd Hget]. unfold group_row.
  destruct (userMap_get m (email c)) as [v|] eqn:Hc.
  - split; [by rewrite userMap_bump_keys|].
    intros e. rewrite userMap_bump_get, rows_of_snoc, some_locked_snoc, Hget.
    destruct (decide (email c = e)) as [<-|Hne].
    + rewrite Hget in Hc. destruct (decide (rows_of (email c) seen = 0%nat)); [done|].
      rewrite decide_False by lia. cbn. rewrite bool_decide_eq_true_2 by done. cbn.
      f_equal. f_equal; [lia|].
      destruct (locked c), (some_locked (email c) seen); done.
    + rewrite bool_decide_eq_false_2 by done. cbn. rewrite orb_false_r.
      replace (rows_of e seen + 0)%nat with (rows_of e seen) by lia. done.
  - split.
    + rewrite fmap_app. cbn. apply NoDup_app. split; [done|]. split.
      * intros x Hx Hin. apply list_elem_of_singleton in Hin as ->.
        by apply userMap_get_None in Hc.
      * apply NoDup_singleton.
    + intros e. rewrite userMap_get_app, rows_of_snoc, some_locked_snoc, Hget. cbn.
      destruct (decide (email c = e)) as [<-|Hne].
      * rewrite Hget in Hc.
        destruct (decide (rows_of (email c) seen = 0%nat)) as [Hz|]; [|done].
        rewrite decide_False by lia. rewrite Hz. cbn.
        rewrite bool_decide_eq_true_2 by done. cbn. f_equal. f_equal.
        destruct (some_locked (email c) seen) eqn:Hl; [|done].
        apply some_locked_true in Hl as (c' & Hc' & He' & _).
        exfalso. revert Hz. apply rows_of_pos. by exists c'.
      * rewrite bool_decide_eq_false_2 by done. cbn. rewrite orb_false_r.
        replace (rows_of e seen + 0)%nat with (rows_of e seen) by lia.
        by destruct (decide (rows_of e seen = 0%nat)).
Qed.

Lemma fold_group_row_tallied (rows seen : list Cell) (m : UserMap) :
  (NoDup m.*1 ∧
   ∀ e, userMap_get m e
        = if decide (rows_of e seen = 0%nat) then None
          else Some (rows_of e seen, some_locked e seen)) →
  NoDup (fold_left group_row rows m).*1 ∧
  ∀ e, userMap_get (fold_left group_row rows m) e
       = if decide (rows_of e (seen ++ rows) = 0%nat) then None
         else Some (rows_of e (seen ++ rows), some_locked e (seen ++ rows)).
Proof.
  revert seen m. induction rows as [|c rows IH]; intros seen m Hinv.
  - by rewrite app_nil_r.
  - cbn [fold_left]. replace (seen ++ c :: rows)%list with ((seen ++ [c]) ++ rows)%list
      by (by rewrite <- app_assoc).
    apply IH. by apply group_row_tallied.
Qed.

Lemma group_by_email_tallied (rows : list Cell) :
  NoDup (group_by_email rows).*1 ∧
  ∀ e, userMap_get (group_by_email rows) e
       = if decide (rows_of e rows = 0%nat) then None
         else Some (rows_of e rows, some_locked e rows).
Proof.
  apply (fold_group_row_tallied rows [] []). split; [apply NoDup_nil_2|done].
Qed.

Lemma group_by_email_entry (rows : list Cell) (e : string) (n : nat) (l : bool) :
  (e, (n, l)) ∈ group_by_email rows →
  rows_of e rows ≠ 0%nat ∧ n = rows_of e rows ∧ l = some_locked e rows.
Proof.
  intros Hin. destruct (group_by_email_tallied rows) as [Hnd Hget].
  apply (userMap_get_NoDup _ _ _ Hnd) in Hin. rewrite Hget in Hin.
  destruct (decide (rows_of e rows = 0%nat)); [done|]. by inversion Hin.
Qed.

Lemma group_by_email_keys (rows : list Cell) (e : string) :
  e ∈ (group_by_email rows).*1 ↔ rows_of e rows ≠ 0%nat.
Proof.
  destruct (group_by_email_tallied rows) as [_ Hget]. specialize (Hget e).
  destruct (decide (rows_of e rows = 0%nat)) as [Hz|Hz].
  - apply userMap_get_None in Hget. tauto.
  - split; [done|]. intros _. destruct (decide (e ∈ (group_by_email rows).*1)); [done|].
    apply userMap_get_None in n. congruence.
Qed.

(** Adding up [f e] times the tally of [e] over the map is adding up
    [f (email c)] over the rows. *)
Lemma userMap_bump_weight (f : string → nat) (m : UserMap) (e : string) (l : bool) :
  e ∈ m.*1 →
  sum_list_with (fun kv : string * (nat * bool) => (f kv.1 * kv.2.1)%nat)
                (userMap_bump m e l)
  = (sum_list_with (fun kv : string * (nat * bool) => (f kv.1 * kv.2.1)%nat) m
     + f e)%nat.
Proof.
  induction m as [|[k [n lk]] m IH]; cbn; intros Hin.
  - by apply elem_of_nil in Hin.
  - destruct (decide (k = e)) as [->|Hne]; cbn; [nia|].
    apply elem_of_cons in Hin as [->|Hin]; [done|]. rewrite IH by done. lia.
Qed.

Lemma fold_group_row_weight (f : string → nat) (rows : list Cell) (m : UserMap) :
  sum_list_with (fun kv : string * (nat * bool) => (f kv.1 * kv.2.1)%nat)
                (fold_left group_row rows m)
  = (sum_list_with (fun kv : string * (nat * bool) => (f kv.1 * kv.2.1)%nat) m
     + sum_list_with (fun c => f (email c)) rows)%nat.
Proof.
  revert m. induction rows as [|c rows IH]; intros m; cbn [fold_left].
  - cbn. lia.
  - rewrite IH. cbn. unfold group_row.
    destruct (userMap_get m (email c)) as [v|] eqn:Hc.
    + rewrite userMap_bump_weight; [lia|].
      destruct (decide (email c ∈ m.*1)); [done|].
      apply userMap_get_None in n. congruence.
    + rewrite sum_list_with_app. cbn. lia.
Qed.

Lemma sum_list_with_fmap_compose {A B} (f : B → nat) (g : A → B) (l : list A) :
  sum_list_with f (g <$> l) = sum_list_with (fun x => f (g x)) l.
Proof. induction l as [|x l IH]; cbn; [done|]. by rewrite IH. Qed.

Lemma sum_list_with_le {A} (f g : A → nat) (l : list A) :
  (∀ x, x ∈ l → (f x <= g x)%nat) → (sum_list_with f l <= sum_list_with g l)%nat.
Proof.
  induction l as [|x l IH]; cbn; intros H; [done|].
  specialize (H x (list_elem_of_here _ _)) as Hx.
  assert (sum_list_with f l <= sum_list_with g l)%nat; [|lia].
  apply IH. intros y Hy. apply H. by right.
Qed.

Lemma sum_list_with_eq {A} (f g : A → nat) (l : list A) :
  (∀ x, x ∈ l → f x = g x) → sum_list_with f l = sum_list_with g l.
Proof.
  intros H. apply Nat.le_antisymm; apply sum_list_with_le; intros x Hx;
    rewrite (H x Hx); done.
Qed.

Lemma totalSquares_sum (users : list UserSquares) :
  totalSquares users = sum_list_with squareCount users.
Proof.
  unfold totalSquares.
  assert (∀ a, fold_left (fun sum u => (sum + squareCount u)%nat) users a
               = (a + sum_list_with squareCount users)%nat) as H.
  { induction users as [|u users IH]; intros a; cbn; [lia|]. rewrite IH. lia. }
  by rewrite H.
Qed.

Lemma lockedSquares_sum (users : list UserSquares) :
  lockedSquares users
  = sum_list_with (fun u => if us_locked u then squareCount u else 0%nat) users.
Proof.
  unfold lockedSquares. fold (totalSquares (List.filter us_locked users)).
  rewrite totalSquares_sum. induction users as [|u users IH]; cbn; [done|].
  destruct (us_locked u); cbn; by rewrite IH.
Qed.

Lemma sort_insert_perm (cmp : string → string → Z) (u : UserSquares)
    (l : list UserSquares) :
  sort_insert cmp u l ≡ₚ u :: l.
Proof.
  induction l as [|v l IH]; cbn; [done|].
  destruct (cmp (us_email u) (us_email v) <=? 0); [done|].
  rewrite IH. apply Permutation_swap.
Qed.

Lemma sort_by_email_perm (cmp : string → string → Z) (l : list UserSquares) :
  sort_by_email cmp l ≡ₚ l.
Proof.
  induction l as [|u l IH]; cbn; [done|].
  rewrite sort_insert_perm. by rewrite IH.
Qed.

(** *** The rows of the table *)

Lemma size_filter_sum (P : (Z * Z) * Cell → Prop) `{!∀ x, Decision (P x)} (m : Grid) :
  size (filter P m)
  = sum_list_with (fun kc => if decide (P kc) then 1%nat else 0%nat) (map_to_list m).
Proof.
  induction m as [|k c m Hk IH] using map_ind.
  - by rewrite map_filter_empty, map_size_empty, map_to_list_empty.
  - rewrite map_to_list_insert by done. cbn.
    destruct (decide (P (k, c))) as [HP|HP].
    + rewrite map_filter_insert_True by done.
      rewrite map_size_insert_None by (by apply map_lookup_filter_None_2; left).
      by rewrite IH.
    + rewrite map_filter_insert_not' by (done || by rewrite Hk).
      by rewrite IH.
Qed.

Lemma rows_of_table (e : string) (m : Grid) :
  rows_of e (snd <$> map_to_list m) = size (cells_of e m).
Proof.
  unfold rows_of, cells_of. rewrite sum_list_with_fmap_compose, size_filter_sum.
  apply sum_list_with_eq. intros kc _. unfold owned_by.
  by destruct (decide (email kc.2 = e)), (decide (email kc.2 = e)).
Qed.

Lemma locked_rows_of_table (m : Grid) :
  size (locked_cells m)
  = sum_list_with (fun c => if locked c then 1%nat else 0%nat) (snd <$> map_to_list m).
Proof.
  unfold locked_cells. rewrite sum_list_with_fmap_compose, size_filter_sum.
  apply sum_list_with_eq. intros kc _. unfold locked_cell.
  destruct (decide (locked kc.2 = true)) as [->|H]; [done|].
  by destruct (locked kc.2).
Qed.

Lemma elem_of_table (c : Cell) (m : Grid) :
  c ∈ snd <$> map_to_list m ↔ ∃ k, m !! k = Some c.
Proof.
  rewrite list_elem_of_fmap. split.
  - intros ([k c'] & -> & Hin). exists k. by apply elem_of_map_to_list.
  - intros (k & Hk). exists (k, c). split; [done|]. by apply elem_of_map_to_list.
Qed.

Lemma has_cells_table (e : string) (m : Grid) :
  rows_of e (snd <$> map_to_list m) ≠ 0%nat ↔ has_cells e m.
Proof.
  rewrite rows_of_pos. unfold has_cells. split.
  - intros (c & Hc & He). apply elem_of_table in Hc as [k Hk]. by exists k, c.
  - intros (k & c & Hk & He). exists c. split; [|done]. apply elem_of_table. by exists k.
Qed.

Lemma has_locked_table (e : string) (m : Grid) :
  some_locked e (snd <$> map_to_list m) = true ↔ has_locked e m.
Proof.
  rewrite some_locked_true. unfold has_locked. split.
  - intros (c & Hc & He). apply elem_of_table in Hc as [k Hk]. by exists k, c.
  - intros (k & c & Hk & He). exists c. split; [|done]. apply elem_of_table. by exists k.
Qed.

Lemma sum_list_with_lt {A} (f g : A → nat) (l : list A) (x : A) :
  (∀ y, y ∈ l → (f y <= g y)%nat) → x ∈ l → (f x < g x)%nat →
  (sum_list_with f l < sum_list_with g l)%nat.
Proof.
  induction l as [|y l IH]; cbn; intros Hle Hin Hlt.
  - by apply elem_of_nil in Hin.
  - specialize (Hle y (list_elem_of_here _ _)) as Hy.
    assert (∀ z, z ∈ l → (f z <= g z)%nat) as Hl by (intros z Hz; apply Hle; by right).
    apply elem_of_cons in Hin as [->|Hin].
    + pose proof (sum_list_with_le f g l Hl). lia.
    + specialize (IH Hl Hin Hlt). lia.
Qed.

Lemma sum_list_with_one {A} (l : list A) :
  sum_list_with (fun _ => 1%nat) l = length l.
Proof. induction l as [|x l IH]; cbn; [done|]. by rewrite IH. Qed.

Lemma users_emails (cmp : string → string → Z) (rows : list Cell) :
  us_email <$> sort_by_email cmp (to_user <$> group_by_email rows)
  ≡ₚ (group_by_email rows).*1.
Proof.
  rewrite sort_by_email_perm, <- list_fmap_compose. done.
Qed.

Lemma users_entry (cmp : string → string → Z) (rows : list Cell) (u : UserSquares) :
  u ∈ sort_by_email cmp (to_user <$> group_by_email rows) →
  rows_of (us_email u) rows ≠ 0%nat ∧
  squareCount u = rows_of (us_email u) rows ∧
  us_locked u = some_locked (us_email u) rows.
Proof.
  rewrite sort_by_email_perm, list_elem_of_fmap.
  intros ([e [n l]] & -> & Hin). cbn. by apply group_by_email_entry.
Qed.

Lemma totalSquares_rows (cmp : string → string → Z) (rows : list Cell) :
  totalSquares (sort_by_email cmp (to_user <$> group_by_email rows)) = length rows.
Proof.
  rewrite totalSquares_sum, sort_by_email_perm, sum_list_with_fmap_compose.
  rewrite <- (sum_list_with_one rows).
  rewrite (sum_list_with_eq _ (fun kv : string * (nat * bool) => (1 * kv.2.1)%nat))
    by (intros; cbn; lia).
  unfold group_by_email.
  by rewrite (fold_group_row_weight (fun _ => 1%nat)).
Qed.

Lemma lockedSquares_rows (cmp : string → string → Z) (rows : list Cell) :
  lockedSquares (sort_by_email cmp (to_user <$> group_by_email rows))
  = sum_list_with (fun c => if some_locked (email c) rows then 1%nat else 0%nat) rows.
Proof.
  rewrite lockedSquares_sum, sort_by_email_perm, sum_list_with_fmap_compose.
  rewrite (sum_list_with_eq _
    (fun kv : string * (nat * bool) =>
       ((if some_locked kv.1 rows then 1 else 0) * kv.2.1)%nat)).
  - unfold group_by_email.
    by rewrite (fold_group_row_weight
                  (fun e => if some_locked e rows then 1%nat else 0%nat)).
  - intros [e [n l]] Hin. cbn.
    apply group_by_email_entry in Hin as (_ & _ & ->).
    destruct (some_locked e rows); lia.
Qed.

(** [X14] ([GET] of [src/app/api/admin/users/route.ts]): to an administrator,
    when the store answers, the users route lists every participant holding
    a cell exactly once, with the number of cells held and with
    [locked = true] exactly when one of them is locked; the tables are left
    as they were. *)
Theorem users_listing_tallies_the_table (localeCompare : string → string → Z)
    (user : User) (st : Store) :
  isAdmin (user_email user) = true →
  ∃ users,
    GET_users localeCompare false (Some user) st
    = (admin_json (ReplyUsers users), st) ∧
    NoDup (us_email <$> users) ∧
    (∀ e, e ∈ us_email <$> users ↔ has_cells e (squares st)) ∧
    (∀ u, u ∈ users →
       squareCount u = size (cells_of (us_email u) (squares st)) ∧
       (us_locked u = true ↔ has_locked (us_email u) (squares st))).
Proof.
  intros Hadm.
  exists (sort_by_email localeCompare
            (to_user <$> group_by_email (select_email_locked st))).
  split; [|split; [|split]].
  - unfold GET_users. by rewrite Hadm.
  - rewrite users_emails. apply group_by_email_tallied.
  - intros e. rewrite users_emails, group_by_email_keys. apply has_cells_table.
  - intros u Hu. apply users_entry in Hu as (_ & -> & ->). split.
    + apply rows_of_table.
    + apply has_locked_table.
Qed.

Lemma users_listing_tallies_the_table_witness :
  ∃ users,
    GET_users ascii_compare false (Some admin) (store two_owners)
    = (admin_json (ReplyUsers users), store two_owners) ∧
    NoDup (us_email <$> users) ∧
    (∀ e, e ∈ us_email <$> users ↔ has_cells e (squares (store two_owners))) ∧
    (∀ u, u ∈ users →
       squareCount u = size (cells_of (us_email u) (squares (store two_owners))) ∧
       (us_locked u = true ↔ has_locked (us_email u) (squares (store two_owners)))).
Proof.
  exact (users_listing_tallies_the_table ascii_compare admin (store two_owners) eq_refl).
Defined.

(** [X15] (the totals of the admin page over the users route): whenever the
    route returns a listing, the page's [totalSquares] is the number of
    rows of the table; its [lockedSquares] counts every cell of a
    participant with a locked cell, so it lies between the number of locked
    rows and the total, and equals the number of locked rows exactly when
    each participant's cells are all locked or all unlocked. *)
Theorem admin_page_totals (localeCompare : string → string → Z) (down : bool)
    (user : option User) (st : Store) (users : list UserSquares) :
  admin_reply (GET_users localeCompare down user st).1 = ReplyUsers users →
  totalSquares users = size (squares st) ∧
  (size (locked_cells (squares st)) <= lockedSquares users <= totalSquares users)%nat ∧
  (lockedSquares users = size (locked_cells (squares st)) ↔ uniform (squares st)).
Proof.
  unfold GET_users. intros Hr.
  destruct user as [user|]; [|done].
  destruct (isAdmin (user_email user)); [|done].
  destruct down; [done|]. cbn in Hr. inversion Hr as [Hu]. clear Hr Hu.
  rewrite totalSquares_rows, lockedSquares_rows, locked_rows_of_table.
  unfold select_email_locked.
  set (rows := snd <$> map_to_list (squares st)).
  assert (Hle : ∀ c, c ∈ rows →
            ((if locked c then 1 else 0)
             <= if some_locked (email c) rows then 1 else 0)%nat).
  { intros c Hc. destruct (locked c) eqn:Hl; [|lia].
    rewrite (proj2 (some_locked_true (email c) rows)); [done|]. by exists c. }
  split; [|split; [split|split]].
  - subst rows. by rewrite length_fmap, length_map_to_list.
  - by apply sum_list_with_le.
  - rewrite <- (sum_list_with_one rows). apply sum_list_with_le.
    intros c _. destruct (some_locked (email c) rows); lia.
  - intros Heq k1 c1 k2 c2 H1 H2 He.
    assert (∀ ka a kb b, squares st !! ka = Some a → squares st !! kb = Some b →
              email a = email b → locked a = true → locked b = true) as Hone.
    { intros ka a kb b Ha Hb Hab Hla.
      destruct (locked b) eqn:Hlb; [done|]. exfalso.
      assert (b ∈ rows) as Hin by (apply elem_of_table; by exists kb).
      pose proof (sum_list_with_lt _ _ rows b Hle Hin) as Hlt.
      cbn beta in Hlt. rewrite Hlb in Hlt.
      rewrite (proj2 (some_locked_true (email b) rows)) in Hlt.
      - specialize (Hlt ltac:(lia)). lia.
      - exists a. split; [apply elem_of_table; by exists ka|done]. }
    destruct (locked c1) eqn:Hl1, (locked c2) eqn:Hl2; try done.
    + rewrite <- Hl2. symmetry. by apply (Hone k1 c1 k2 c2).
    + rewrite <- Hl1. by apply (Hone k2 c2 k1 c1).
  - intros Huni. apply sum_list_with_eq. intros c Hc.
    apply elem_of_table in Hc as [k Hk].
    destruct (some_locked (email c) rows) eqn:Hs.
    + apply some_locked_true in Hs as (c' & Hc' & He' & Hl').
      apply elem_of_table in Hc' as [k' Hk'].
      by rewrite <- (Huni k' c' k c Hk' Hk He'), Hl'.
    + destruct (locked c) eqn:Hl; [|done].
      assert (some_locked (email c) rows = true); [|congruence].
      apply some_locked_true. exists c. split; [|done]. apply elem_of_table. by exists k.
Qed.

Lemma admin_page_totals_witness :
  totalSquares (sort_by_email ascii_compare
                  (to_user <$> group_by_email (select_email_locked (store two_owners))))
  = size (squares (store two_owners)).
Proof.
  exact (proj1 (admin_page_totals ascii_compare false (Some admin) (store two_owners)
                  _ eq_refl)).
Defined.

(** ** Magic-link tokens *)






(** [X17] ([verifyMagicLinkToken]): the result of the statement that marks a
    token as used is not looked at.  When the store fails it, the link
    verifies all the same and the table is unchanged, so the same link
    verifies again until it expires. *)
Theorem unmarked_link_verifies_again (token e : string) (now : Z) (t : Tokens) :
  (verifyMagicLinkToken false true now token t).1 = Some e →
  (verifyMagicLinkToken false true now token t).2 = t ∧
  ∃ r, t !! token = Some r ∧ tk_email r = e ∧ now <= expires_at r ∧
       ∀ wd later, later <= expires_at r →
         (verifyMagicLinkToken false wd later token t).1 = Some e.
Proof.
  unfold verifyMagicLinkToken. destruct (t !! token) as [r|] eqn:Hr; [|done].
  destruct (used r) eqn:Hu; [done|].
  destruct (expires_at r <? now) eqn:Hx; [done|]. cbn. intros [= <-].
  split; [done|]. exists r. apply Z.ltb_ge in Hx. repeat split; try done.
  intros wd later Hl. by rewrite (proj2 (Z.ltb_ge _ _)) by lia.
Qed.

Lemma unmarked_link_verifies_again_witness :
  (verifyMagicLinkToken false true 5
     "k3x9" (createMagicLinkToken false "k3x9" 0 "Alice@Example.com" ∅).2).2
  = (createMagicLinkToken false "k3x9" 0 "Alice@Example.com" ∅).2.
Proof.
  exact (proj1 (unmarked_link_verifies_again "k3x9" "alice@example.com" 5
                  (createMagicLinkToken false "k3x9" 0 "Alice@Example.com" ∅).2
                  eq_refl)).
Defined.

Lemma cleanup_expired_tokens_lookup (now : Z) (t : Tokens) (token : string) :
  cleanup_expired_tokens now t !! token
  = match t !! token with
    | Some r => if used r || (expires_at r <? now) then None else Some r
    | None => None
    end.
Proof.
  unfold cleanup_expired_tokens. destruct (t !! token) as [r|] eqn:Hr.
  - destruct (used r || (expires_at r <? now)) eqn:Hb.
    + apply map_lookup_filter_None. right. intros r' Hr' Hk. cbn in Hk.
      assert (r' = r) as -> by congruence. apply Hk.
      apply orb_true_iff in Hb as [Hb|Hb]; [by right|left; by apply Z.ltb_lt].
    + apply map_lookup_filter_Some. split; [done|]. cbn.
      apply orb_false_iff in Hb as [Hu Hx]. apply Z.ltb_ge in Hx.
      intros [?|?]; [lia|congruence].
  - apply map_lookup_filter_None. by left.
Qed.

(** [X18] ([cleanup_expired_tokens] against [verifyMagicLinkToken]): the
    cleanup at an instant keeps exactly the tokens that verify at that
    instant, and no later verification gives another answer for it. *)
Theorem cleanup_keeps_valid_links (now : Z) (t : Tokens) :
  (∀ token r,
     cleanup_expired_tokens now t !! token = Some r ↔
     t !! token = Some r ∧
     (verifyMagicLinkToken false true now token t).1 = Some (tk_email r)) ∧
  (∀ rd wd later token, now <= later →
     (verifyMagicLinkToken rd wd later token (cleanup_expired_tokens now t)).1
     = (verifyMagicLinkToken rd wd later token t).1).
Proof.
  split.
  - intros token r. rewrite cleanup_expired_tokens_lookup. unfold verifyMagicLinkToken.
    destruct (t !! token) as [r0|]; [|by split; [|intros []]].
    destruct (used r0); cbn; [by split; [|intros []]|].
    destruct (expires_at r0 <? now); cbn; [by split; [|intros []]|].
    split; [by intros [= ->]|by intros []].
  - intros rd wd later token Hl. unfold verifyMagicLinkToken.
    destruct rd; [done|]. rewrite cleanup_expired_tokens_lookup.
    destruct (t !! token) as [r|]; [|done].
    destruct (used r) eqn:Hu; cbn; [done|].
    destruct (expires_at r <? now) eqn:Hx; cbn.
    + apply Z.ltb_lt in Hx. by rewrite (proj2 (Z.ltb_lt _ _)) by lia.
    + rewrite Hu. by destruct (expires_at r <? later).
Qed.

Lemma cleanup_keeps_valid_links_witness :
  (verifyMagicLinkToken false false 7 "k3x9"
     (cleanup_expired_tokens 5
        (createMagicLinkToken false "k3x9" 0 "Alice@Example.com" ∅).2)).1
  = (verifyMagicLinkToken false false 7 "k3x9"
       (createMagicLinkToken false "k3x9" 0 "Alice@Example.com" ∅).2).1.
Proof.
  refine (proj2 (cleanup_keeps_valid_links 5
                   (createMagicLinkToken false "k3x9" 0 "Alice@Example.com" ∅).2)
            false false 7 "k3x9" _).
  lia.
Defined.

(** ** The page of the grid *)

Lemma res_ok_failed (r : Response) : failed r → res_ok r = false.
Proof.
  unfold failed, res_ok. intros H. apply andb_false_iff. right. apply Z.leb_gt. lia.
Qed.

Lemma res_ok_json (b : Body) : res_ok (json b) = true.
Proof. reflexivity. Qed.

Lemma fold_insert_rows (l : list (Z * Z * Cell)) (m0 : Grid) :
  NoDup l.*1 →
  fold_left (fun (m : Grid) (kc : Z * Z * Cell) => <[kc.1 := kc.2]> m) l m0
  = list_to_map l ∪ m0.
Proof.
  revert m0. induction l as [|[k c] l IH]; intros m0 Hnd.
  - cbn. by rewrite (left_id_L ∅ (∪)).
  - rewrite fmap_cons in Hnd. apply NoDup_cons in Hnd as [Hk Hnd].
    cbn [fold_left fst snd]. rewrite IH by done.
    rewrite list_to_map_cons, <- insert_union_l. symmetry. apply insert_union_r.
    by apply not_elem_of_list_to_map_1.
Qed.

Lemma squares_map_table (m : Grid) : squares_map (to_square <$> map_to_list m) = m.
Proof.
  unfold squares_map.
  assert (∀ (l : list (Z * Z * Cell)) (m0 : Grid),
            fold_left (fun (m : Grid) sq =>
                         <[(row_num sq, col_num sq) :=
                             {| email := sq_email sq; locked := sq_locked sq |}]> m)
                      (to_square <$> l) m0
            = fold_left (fun (m : Grid) (kc : Z * Z * Cell) => <[kc.1 := kc.2]> m) l m0)
    as H.
  { induction l as [|[[r c] [em lk]] l IH]; intros m0; cbn; [done|]. apply IH. }
  rewrite H, fold_insert_rows by apply NoDup_fst_map_to_list.
  by rewrite list_to_map_to_list, (right_id_L ∅ (∪)).
Qed.

Lemma get_response (e : Env) (w : World) :
  fault e SelectSquares = false →
  (run e GET_squares w).1
  = json (GridBody (to_square <$> map_to_list (squares (store w)))
                   (if fault e SelectConfigSingle then None else config (store w))).
Proof.
  intros Fs. unfold run, GET_squares. run_step. rewrite (answer_ok _ _ _ Fs).
  cbn [exec Payload]. run_step. unfold answer.
  destruct (fault e SelectConfigSingle); run_step; [done|].
  cbn [exec Payload]. by destruct (config (store w)); run_step.
Qed.

Lemma fetchSquares_loads (e : Env) (p : Page) (w : World) :
  fault e SelectSquares = false →
  (fetchSquares true e p w).1
  = {| page_squares := squares (store w);
       page_config := match (if fault e SelectConfigSingle then None
                             else config (store w)) with
                      | Some c => Some c
                      | None => page_config p
                      end;
       page_error := page_error p |} ∧
  store (fetchSquares true e p w).2 = store w.
Proof.
  intros Fs. unfold fetchSquares. cbn [fst snd]. rewrite get_reads_only.
  split; [|done]. rewrite (get_response e w Fs), res_ok_json. cbn [body json].
  by rewrite squares_map_table.
Qed.

Lemma userLocked_has_locked (u : User) (p : Page) :
  userEmail u ≠ "" →
  userLocked (Some u) p = true ↔ has_locked (userEmail u) (page_squares p).
Proof.
  intros Hne. unfold userLocked. rewrite bool_decide_eq_false_2 by done.
  apply has_locked_table.
Qed.

(** [X19] ([fetchSquares] over [GET] of the squares route): when the response
    arrives and the store returned the cells, the page holds exactly the
    table, whatever it held before; it takes over the configuration of the
    response when there is one and keeps its own otherwise, and the tables
    are unchanged. *)
Theorem fetch_shows_the_table (e : Env) (p : Page) (w : World) :
  fault e SelectSquares = false →
  let res := fetchSquares true e p w in
  page_squares res.1 = squares (store w) ∧
  store res.2 = store w ∧
  page_error res.1 = page_error p ∧
  page_config res.1
  = (if fault e SelectConfigSingle then page_config p
     else match config (store w) with Some c => Some c | None => page_config p end).
Proof.
  intros Fs res. subst res.
  destruct (fetchSquares_loads e p w Fs) as [-> ->]. cbn.
  repeat split. by destruct (fault e SelectConfigSingle).
Qed.

Lemma fetch_shows_the_table_witness :
  page_squares (fetchSquares true reliable (page_of fresh) two_owners).1
  = squares (store two_owners).
Proof.
  exact (proj1 (fetch_shows_the_table reliable (page_of fresh) two_owners eq_refl)).
Defined.

(** [X20] ([handleSquareClick] over the toggle): a click on a page that shows
    the table leaves a page that shows the table, whatever the store does,
    when the response arrives and the session e-mail is in lower case: the
    optimistic update is what the toggle did, and it is rolled back exactly
    when the toggle changed nothing. *)
Theorem click_keeps_the_page_in_step
    (e : Env) (u : User) (r c : Z) (p : Page) (w : World) :
  page_squares p = squares (store w) →
  toLowerCase (user_email u) = user_email u →
  let res := handleSquareClick true e (Some u) r c p w in
  page_squares res.1 = squares (store res.2).
Proof.
  intros Hstep Hlow res. subst res. unfold handleSquareClick.
  destruct (userLocked (Some u) p); [done|].
  pose proof (toggle_outcomes e (Some u) {| row := JNumber r; col := JNumber c |} w)
    as Heff.
  unfold userEmail. rewrite Hlow, Hstep.
  destruct (squares (store w) !! (r, c)) as [sq|] eqn:Hm.
  - destruct (negb (bool_decide (email sq = user_email u))); [done|].
    cbn [fst snd].
    destruct Heff as [Hf Hs | u' r' c' Hu Hb _ _ Hnone _ _
                     | u' r' c' Hu Hb _ _ _ Hres Hst].
    + rewrite (res_ok_failed _ Hf). cbn [fst snd page_squares set_error]. by rewrite Hs.
    + injection Hb as <- <-. congruence.
    + injection Hb as <- <-. rewrite Hres, res_ok_json, Hst. cbn [fst snd page_squares squares]. done.
  - cbn [fst snd].
    destruct Heff as [Hf Hs | u' r' c' Hu Hb _ _ _ Hres Hst
                     | u' r' c' Hu Hb _ _ Hsome _ _].
    + rewrite (res_ok_failed _ Hf). cbn [fst snd page_squares set_error]. by rewrite Hs.
    + injection Hb as <- <-. injection Hu as <-.
      rewrite Hres, res_ok_json, Hst. cbn [fst snd page_squares squares]. done.
    + injection Hb as <- <-. congruence.
Qed.

Lemma click_keeps_the_page_in_step_witness :
  page_squares (handleSquareClick true reliable (Some alice) 0 0
                  (page_of two_owners) two_owners).1
  = squares (store (handleSquareClick true reliable (Some alice) 0 0
                      (page_of two_owners) two_owners).2).
Proof.
  exact (click_keeps_the_page_in_step reliable alice 0 0 (page_of two_owners)
           two_owners eq_refl eq_refl).
Defined.

(** [X21] ([handleSquareClick]): the page does not read the action of the
    response.  On a page that is behind the table and shows as free a cell
    that the participant already holds, a click makes the toggle release the
    cell while the page, without an error, shows it as the participant's.
    And when the response of a claim is lost, the page rolls back and
    reports an error although the cell was claimed. *)
Theorem page_can_leave_the_table
    (e : Env) (u : User) (r c : Z) (p : Page) (w : World) :
  0 <= r <= 9 → 0 <= c <= 9 →
  toggle_store_ok e u r c →
  ¬ has_locked (user_email u) (squares (store w)) →
  userLocked (Some u) p = false →
  page_squares p !! (r, c) = None →
  (squares (store w) !! (r, c) = Some {| email := user_email u; locked := false |} →
   let res := handleSquareClick true e (Some u) r c p w in
   page_squares res.1 !! (r, c) = Some {| email := userEmail u; locked := false |} ∧
   page_error res.1 = None ∧
   squares (store res.2) !! (r, c) = None) ∧
  (squares (store w) !! (r, c) = None →
   let res := handleSquareClick false e (Some u) r c p w in
   page_squares res.1 !! (r, c) = None ∧
   page_error res.1 = Some "Failed to update square" ∧
   squares (store res.2) !! (r, c) = Some {| email := user_email u; locked := false |}).
Proof.
  intros Hr Hc (Fs & Fd & Fi) Hno Hul Hp. split.
  - intros Hm res. subst res. unfold handleSquareClick. rewrite Hul, Hp. cbn [fst snd].
    destruct (toggle_releases e u r c w Hr Hc Fs Fd Hno Hm) as [-> ->].
    rewrite res_ok_json. cbn. by rewrite lookup_insert_eq, lookup_delete_eq.
  - intros Hm res. subst res. unfold handleSquareClick. rewrite Hul, Hp. cbn [fst snd].
    destruct (toggle_claims e u r c w Hr Hc Fs Fi Hno Hm) as [_ ->].
    cbn. by rewrite lookup_insert_eq.
Qed.

Lemma page_can_leave_the_table_witness :
  squares (store (handleSquareClick true reliable (Some alice) 3 4
                    (page_of fresh) two_owners).2) !! (3, 4) = None.
Proof.
  refine (proj2 (proj2 (proj1 (page_can_leave_the_table reliable alice 3 4
                                 (page_of fresh) two_owners _ _
                                 (reliable_toggle_store_ok _ _ _) _ eq_refl eq_refl)
                          eq_refl))); [lia|lia|].
  intros (k & cell & Hk & _ & Hl). revert Hk. cbn.
  destruct (decide (k = (3, 4))) as [->|H1].
  - rewrite lookup_insert_eq. intros [= <-]. discriminate.
  - rewrite lookup_insert_ne by done. destruct (decide (k = (5, 5))) as [->|H2].
    + rewrite lookup_insert_eq. intros [= <-]. discriminate.
    + by rewrite lookup_insert_ne.
Defined.

(** [X22] ([handleLockIn] over the lock-in and the listing): when the lock-in
    succeeds and the listing that follows returns the cells, the page shows
    the table, in which the participant's cells are locked, and from then on
    a click of the participant on that page sends nothing. *)
Theorem lock_in_refreshes_the_page
    (e e' : Env) (u : User) (p : Page) (w : World) :
  toLowerCase (user_email u) = user_email u → user_email u ≠ "" →
  userLocked (Some u) p = false → userSquareCount (Some u) p ≠ 0%nat →
  res_ok (run e (POST_lock (Some u)) w).1 = true →
  fault e' SelectSquares = false →
  let res := handleLockIn true true e e' (Some u) p w in
  squares (store res.2) = lock_where (user_email u) (squares (store w)) ∧
  page_squares res.1 = squares (store res.2) ∧
  userLocked (Some u) res.1 = true ∧
  ∀ d e2 r c w2, handleSquareClick d e2 (Some u) r c res.1 w2 = (res.1, w2).
Proof.
  intros Hlow Hne Hul Hcount Hok Fs res.
  assert (Hue : userEmail u ≠ "") by (unfold userEmail; by rewrite Hlow).
  assert (Hsq : squares (store (run e (POST_lock (Some u)) w).2)
                = lock_where (user_email u) (squares (store w)) ∧
                has_cells (user_email u) (squares (store w))).
  { destruct (lock_outcomes e (Some u) w)
      as [Hf _ _ _ | u' n shown Hu _ _ Hcells _ _ Hst _ _
         | u' n shown Hu _ _ Hcells _ _ Hst _ _ _ _ _].
    - rewrite (res_ok_failed _ Hf) in Hok. discriminate.
    - injection Hu as <-. by rewrite Hst.
    - injection Hu as <-. done. }
  destruct Hsq as [Hsq Hcells].
  assert (Hres :
    page_squares res.1 = lock_where (user_email u) (squares (store w)) ∧
    squares (store res.2) = lock_where (user_email u) (squares (store w))).
  { subst res. unfold handleLockIn. rewrite Hul.
    destruct (userSquareCount (Some u) p) as [|k] eqn:Hk; [done|].
    cbn [orb Nat.eqb]. rewrite Hok.
    destruct (fetchSquares_loads e' (set_error p None)
                (run e (POST_lock (Some u)) w).2 Fs) as [Hpage Hstore].
    cbn [fst snd]. rewrite Hstore, Hsq. split; [|done].
    destruct (body (run e (POST_lock (Some u)) w).1) as [| |k' [cfg|]| |];
      cbn [page_squares]; by rewrite Hpage. }
  destruct Hres as [Hpage Hstore].
  assert (Hlocked : userLocked (Some u) res.1 = true).
  { apply userLocked_has_locked; [done|]. rewrite Hpage. unfold userEmail. rewrite Hlow.
    destruct Hcells as (k & cell & Hk & Hown). exists k, (lock cell).
    rewrite lookup_lock_where, Hk. cbn. rewrite decide_True by done.
    by destruct cell. }
  split; [done|]. split; [congruence|]. split; [done|].
  intros d e2 r c w2. unfold handleSquareClick. by rewrite Hlocked.
Qed.

Lemma lock_in_refreshes_the_page_witness :
  userLocked (Some alice)
    (handleLockIn true true reliable reliable (Some alice)
       (page_of two_owners) two_owners).1 = true.
Proof.
  refine (proj1 (proj2 (proj2 (lock_in_refreshes_the_page reliable reliable alice
                                 (page_of two_owners) two_owners
                                 eq_refl _ eq_refl _ eq_refl eq_refl)))).
  - discriminate.
  - vm_compute. discriminate.
Defined.

Lemma json_not_failed (b : Body) : ¬ failed (json b).
Proof. unfold failed, json. cbn. lia. Qed.

(** [X23] (the cursor of a cell against [handleSquareClick] and the toggle):
    on a page that shows the table, with the store answering, the cells
    shown with a pointer are exactly those on which the toggle succeeds; a
    click on any other cell sends nothing, and a click on a pointer cell
    sends the toggle. *)
Theorem pointer_marks_the_cells_that_toggle
    (e : Env) (u : User) (r c : Z) (p : Page) (w : World) :
  page_squares p = squares (store w) →
  toLowerCase (user_email u) = user_email u → user_email u ≠ "" →
  0 <= r <= 9 → 0 <= c <= 9 →
  fault e (SelectLockedOf (user_email u)) = false → toggle_store_ok e u r c →
  (cell_cursor u r c p = Pointer
   ↔ ¬ failed (run e (POST_squares (Some u) (at_ r c)) w).1) ∧
  (cell_cursor u r c p ≠ Pointer →
   ∀ d, handleSquareClick d e (Some u) r c p w = (p, w)) ∧
  (cell_cursor u r c p = Pointer →
   ∀ d, (handleSquareClick d e (Some u) r c p w).2
        = (run e (POST_squares (Some u) (at_ r c)) w).2).
Proof.
  intros Hstep Hlow Hne Hr Hc Fg (Fs & Fd & Fi).
  assert (Hue : userEmail u = user_email u) by exact Hlow.
  assert (Hul : userLocked (Some u) p = true
                ↔ has_locked (user_email u) (squares (store w))).
  { rewrite userLocked_has_locked by (by rewrite Hue). by rewrite Hue, Hstep. }
  unfold cell_cursor, handleSquareClick, at_. rewrite Hue, Hstep.
  destruct (userLocked (Some u) p) eqn:Hl.
  - assert (Hlocked : has_locked (user_email u) (squares (store w))) by by apply Hul.
    destruct (toggle_when_locked e u {| row := JNumber r; col := JNumber c |} w
                Fg Hlocked) as (Hf & _ & _).
    destruct (squares (store w) !! (r, c)) as [sq|];
      [destruct (bool_decide (email sq = user_email u))|];
      (split; [split; [done|by intros []]|split; [done|done]]).
  - assert (Hno : ¬ has_locked (user_email u) (squares (store w))).
    { intros H. apply Hul in H. congruence. }
    destruct (squares (store w) !! (r, c)) as [sq|] eqn:Hm.
    + destruct (bool_decide (email sq = user_email u)) eqn:Hown.
      * apply bool_decide_eq_true in Hown.
        assert (sq = {| email := user_email u; locked := false |}) as ->.
        { destruct sq as [em [|]]; cbn in Hown; subst em; [|done].
          exfalso. apply Hno. by exists (r, c), {| email := user_email u; locked := true |}. }
        destruct (toggle_releases e u r c w Hr Hc Fs Fd Hno Hm) as [Hres _].
        split; [split; [intros _; rewrite Hres; apply json_not_failed|done]|].
        split; [done|]. intros _ d. cbn [negb fst snd]. done.
      * apply bool_decide_eq_false in Hown.
        split; [|split; [done|done]]. split; [done|]. intros Hnf. exfalso. apply Hnf.
        destruct (toggle_outcomes e (Some u) {| row := JNumber r; col := JNumber c |} w)
          as [Hf _ | u' r' c' _ Hb _ _ Hnone _ _ | u' r' c' Hu Hb _ _ Hsome _ _].
        -- done.
        -- injection Hb as <- <-. congruence.
        -- injection Hb as <- <-. injection Hu as <-. rewrite Hm in Hsome.
           injection Hsome as ->. done.
    + destruct (toggle_claims e u r c w Hr Hc Fs Fi Hno Hm) as [Hres _].
      split; [split; [intros _; rewrite Hres; apply json_not_failed|done]|].
      split; [done|]. intros _ d. done.
Qed.

Lemma pointer_marks_the_cells_that_toggle_witness :
  cell_cursor alice 5 5 (page_of two_owners) = Pointer
  ↔ ¬ failed (run reliable (POST_squares (Some alice) (at_ 5 5)) two_owners).1.
Proof.
  refine (proj1 (pointer_marks_the_cells_that_toggle reliable alice 5 5
                   (page_of two_owners) two_owners eq_refl eq_refl _ _ _ eq_refl
                   (reliable_toggle_store_ok _ _ _))); [discriminate|lia|lia].
Defined.
